(** * The RAG agent of new_app.py: a shallow embedding and its properties

    The development follows [RAGAgent] in [new_app.py]: the retrieval tool,
    the three functions closed over by [setup_agent] ([should_continue],
    [call_llm], [take_action]), the two-node state graph and
    [ask_question], and the [/ask] route that calls it.  The language
    model and the vector-store retriever are external services: they are
    fields of the agent and may fail. *)

From Stdlib Require Import DecimalString.
From stdpp Require Import gmap strings list.

(** ** Exceptions, events and the effect monad *)

(** Every exception of the embedding is a subclass of Python's [Exception],
    which is what [except Exception] in [ask_question] catches. *)
Inductive Exception : Type :=
| IndexError
| AttributeError
| GraphRecursionError
| ToolValidationError
| UnicodeEncodeError
| ServiceError (detail : string).

Inductive Outcome (A : Type) : Type :=
| Ok (a : A)
| Raise (e : Exception).
Arguments Ok {A} a.
Arguments Raise {A} e.

Module Messages.

(** One entry of [AIMessage.tool_calls]: the dict with keys ['name'],
    ['args'] and ['id']. *)
Record ToolCall : Type := {
  tc_name : string;
  tc_args : gmap string string;
  tc_id : string
}.

Inductive Message : Type :=
| SystemMessage (text : string)
| HumanMessage (text : string)
| AIMessage (text : string) (calls : list ToolCall)
| ToolMessage (tool_call_id : string) (name : string) (text : string).

(** [m.content] *)
Definition content (m : Message) : string :=
  match m with
  | SystemMessage text | HumanMessage text
  | AIMessage text _ | ToolMessage _ _ text => text
  end.

(** [m.tool_calls]: only assistant messages have the attribute; [None]
    stands for [hasattr(m, 'tool_calls') = False]. *)
Definition tool_calls (m : Message) : option (list ToolCall) :=
  match m with
  | AIMessage _ calls => Some calls
  | _ => None
  end.

Definition hasattr_tool_calls (m : Message) : bool :=
  match tool_calls m with Some _ => true | None => false end.

(** The call id and tool name a tool-result message carries. *)
Definition tool_result_key (m : Message) : option (string * string) :=
  match m with
  | ToolMessage i n _ => Some (i, n)
  | _ => None
  end.

End Messages.
Export Messages.

Record Document : Type := { page_content : string }.

(** What the agent does to the outside world, in order. *)
Inductive Event : Type :=
| LLMInvoke (messages : list Message)
| ToolInvoke (name : string) (tool_input : string)
| RetrieverQuery (query : string).

(** A computation yields the events it performed and either a value or a
    raised exception. *)
Record M (A : Type) : Type := Run {
  log : list Event;
  outcome : Outcome A
}.
Arguments Run {A} log outcome.
Arguments log {A} m.
Arguments outcome {A} m.

Definition ret {A} (a : A) : M A := Run [] (Ok a).

Definition raise {A} (e : Exception) : M A := Run [] (Raise e).

Definition bind {A B} (m : M A) (k : A → M B) : M B :=
  match outcome m with
  | Ok a => let rest := k a in Run (log m ++ log rest) (outcome rest)
  | Raise e => Run (log m) (Raise e)
  end.

(** [try: body / except Exception as e: handler] *)
Definition try_except {A} (body : M A) (handler : Exception → M A) : M A :=
  match outcome body with
  | Ok a => body
  | Raise e =>
      let recovery := handler e in
      Run (log body ++ log recovery) (outcome recovery)
  end.

#[global] Instance M_ret : MRet M := @ret.
#[global] Instance M_bind : MBind M := λ A B k m, bind m k.

(** ** Python helpers *)

(** [l[-1]] *)
Definition last_item {A} (l : list A) : M A :=
  match last l with
  | Some x => ret x
  | None => raise IndexError
  end.

(** [enumerate(l)], counting from [start] *)
Fixpoint enumerate_from {A} (start : nat) (l : list A) : list (nat * A) :=
  match l with
  | [] => []
  | x :: rest => (start, x) :: enumerate_from (S start) rest
  end.

Definition enumerate {A} (l : list A) : list (nat * A) := enumerate_from 0 l.

(** [sep.join(parts)] *)
Fixpoint join (sep : string) (parts : list string) : string :=
  match parts with
  | [] => ""
  | [p] => p
  | p :: rest => p +:+ sep +:+ join sep rest
  end.

(** [str(n)] for a non-negative integer *)
Definition str_of_nat (n : nat) : string :=
  NilEmpty.string_of_uint (Nat.to_uint n).

Definition nl : string := String (Ascii.ascii_of_nat 10) EmptyString.

(** ** The agent *)

(** What [self.llm.invoke] returns: an assistant message. *)
Record AIReply : Type := {
  reply_content : string;
  reply_tool_calls : list ToolCall
}.

Definition reply_message (r : AIReply) : Message :=
  AIMessage (reply_content r) (reply_tool_calls r).

(** [self]: the chat model, the retriever over the vector store, and the
    step budget of the compiled graph [self.rag_agent].  The graph runtime
    (langgraph) stops a run with [GraphRecursionError] after
    [recursion_limit] supersteps; [ask_question] passes no config, so the
    runtime's default applies. *)
Record RAGAgent : Type := {
  llm : list Message → Outcome AIReply;
  retriever : string → Outcome (list Document);
  recursion_limit : nat
}.

Definition DEFAULT_RECURSION_LIMIT : nat := 25.

(** [self.llm.invoke(messages)] *)
Definition llm_invoke (self : RAGAgent) (messages : list Message) : M AIReply :=
  Run [LLMInvoke messages] (llm self messages).

(** [self.retriever.get_relevant_documents(query)] *)
Definition get_relevant_documents (self : RAGAgent) (query : string)
  : M (list Document) :=
  Run [RetrieverQuery query] (retriever self query).

Definition NO_RELEVANT_INFORMATION : string :=
  "No relevant information found in the research paper.".

Definition INCORRECT_TOOL_NAME : string :=
  "Incorrect Tool Name, please use the available tool.".

Definition FALLBACK_ANSWER : string :=
  "I'm sorry, I encountered an error while processing your question. Please try again.".

(** [f"Document {i+1}:\n{doc.page_content}"] *)
Definition document_block (entry : nat * Document) : string :=
  "Document " +:+ str_of_nat (entry.1 + 1) +:+ ":" +:+ nl
    +:+ page_content entry.2.

(** The function that [@tool] decorates (lines 64-71): what runs when the
    body is called with [self] and [query]. *)
Definition retriever_tool (self : RAGAgent) (query : string) : M string :=
  docs ← get_relevant_documents self query;
  match docs with
  | [] => ret NO_RELEVANT_INFORMATION
  | _ => ret (join (nl +:+ nl) (map document_block (enumerate docs)))
  end.

(** [self.retriever_tool.invoke(tool_input)].  [@tool] is applied to the
    plain function [retriever_tool(self, query)] inside the class body, so
    the class attribute is the tool object built from it and not a
    method: reading it through [self] binds nothing.  The tool's input
    schema has the two fields [self] and [query]; a bare string fills the
    first of them only, the input fails validation, and the function body
    is not run. *)
Definition retriever_tool_invoke (self : RAGAgent) (tool_input : string)
  : M string :=
  Run [ToolInvoke "retriever_tool" tool_input] (Raise ToolValidationError).

(** [{t.name: t for t in tools}] with [tools = [self.retriever_tool]] *)
Definition tools_dict (self : RAGAgent) : gmap string (string → M string) :=
  {[ "retriever_tool" := retriever_tool_invoke self ]}.

Definition indent : string := "        ".

Definition system_prompt : string :=
  nl +:+ indent +:+ "You are an intelligent AI assistant who answers questions about indivisible fair division and related topics."
  +:+ nl +:+ indent +:+ "Use the retriever tool to look up information from the research paper."
  +:+ nl +:+ indent +:+ "Always cite specific parts of the document in your answers."
  +:+ nl +:+ indent.

(** The value of the state's only key, ['messages']. *)
Abbreviation AgentState := (list Message).

(** [m.tool_calls], an [AttributeError] on a message without the
    attribute *)
Definition getattr_tool_calls (m : Message) : M (list ToolCall) :=
  match tool_calls m with
  | Some calls => ret calls
  | None => raise AttributeError
  end.

(** [hasattr(..) and len(..) > 0]: the right operand is evaluated only
    when the left one is true. *)
Definition should_continue (state : AgentState) : M bool :=
  last_message ← last_item state;
  if hasattr_tool_calls last_message then
    calls ← getattr_tool_calls last_message;
    ret (bool_decide (0 < length calls))
  else ret false.

Definition call_llm (self : RAGAgent) (state : AgentState) : M AgentState :=
  let messages := [SystemMessage system_prompt] ++ state in
  message ← llm_invoke self messages;
  ret [reply_message message].

(** The body of [for t in tool_calls], one iteration: the text produced
    for request [t]. *)
Definition tool_call_result (self : RAGAgent) (t : ToolCall) : M string :=
  match tools_dict self !! tc_name t with
  | None => ret INCORRECT_TOOL_NAME
  | Some tool => tool (default "" (tc_args t !! "query"))
  end.

(** The loop of [take_action]; [results] is the list appended to. *)
Fixpoint take_action_loop (self : RAGAgent) (pending : list ToolCall)
    (results : list Message) : M (list Message) :=
  match pending with
  | [] => ret results
  | t :: rest =>
      result ← tool_call_result self t;
      take_action_loop self rest
        (results ++ [ToolMessage (tc_id t) (tc_name t) result])
  end.

Definition take_action (self : RAGAgent) (state : AgentState) : M AgentState :=
  last_message ← last_item state;
  calls ← getattr_tool_calls last_message;
  take_action_loop self calls [].

(** ** The state graph *)

(** The nodes ["llm"] and ["retriever_agent"], and [END]. *)
Inductive Node : Type :=
| node_llm
| node_retriever_agent
| END.

(** [AgentState] declares [messages: Sequence[BaseMessage]] with no reducer
    annotation, so the runtime keeps, for that key, the value the node
    returned: the update replaces the previous list. *)
Definition channel_write (previous update : AgentState) : AgentState := update.

(** [graph.add_node("llm", call_llm)],
    [graph.add_node("retriever_agent", take_action)] *)
Definition run_node (self : RAGAgent) (node : Node) (state : AgentState)
  : M AgentState :=
  match node with
  | node_llm => call_llm self state
  | node_retriever_agent => take_action self state
  | END => ret state
  end.

(** [graph.add_conditional_edges("llm", should_continue,
                                 {True: "retriever_agent", False: END})],
    [graph.add_edge("retriever_agent", "llm")] *)
Definition next_node (node : Node) (state : AgentState) : M Node :=
  match node with
  | node_llm =>
      continue ← should_continue state;
      ret (if continue : bool then node_retriever_agent else END)
  | node_retriever_agent => ret node_llm
  | END => ret END
  end.

(** One superstep: run the node, write its update to the state, follow the
    outgoing edge (the condition of a conditional edge reads the updated
    state). *)
Definition superstep (self : RAGAgent) (node : Node) (state : AgentState)
  : M (Node * AgentState) :=
  update ← run_node self node state;
  let state' := channel_write state update in
  next ← next_node node state';
  ret (next, state').

(** The runtime's loop.  A run is given [budget] steps; each superstep
    takes one, and so does noticing that the run has arrived at [END]: a
    run that reaches [END] only with its last step raises
    [GraphRecursionError] like one that never reaches it.  The runtime
    accepts positive limits only; what [invoke] raises is stated for
    those. *)
Fixpoint pregel_loop (self : RAGAgent) (budget : nat) (node : Node)
    (state : AgentState) : M AgentState :=
  match budget with
  | 0 => raise GraphRecursionError
  | S budget' =>
      match node with
      | END => ret state
      | _ =>
          config ← superstep self node state;
          pregel_loop self budget' config.1 config.2
      end
  end.

(** [self.rag_agent.invoke({"messages": messages})], with
    [graph.set_entry_point("llm")] *)
Definition rag_agent_invoke (self : RAGAgent) (input : AgentState)
  : M AgentState :=
  pregel_loop self (recursion_limit self) node_llm (channel_write [] input).

(** [ask_question], for any callable in the place of
    [self.rag_agent.invoke] *)
Definition ask_question_via (invoke : AgentState → M AgentState)
    (question : string) : M string :=
  try_except
    (let messages := [HumanMessage question] in
     result ← invoke messages;
     answer ← last_item result;
     ret (content answer))
    (λ e, ret FALLBACK_ANSWER).

Definition ask_question (self : RAGAgent) (question : string) : M string :=
  ask_question_via (rag_agent_invoke self) question.

(** The conversations handed to the chat model, in call order. *)
Definition llm_inputs (events : list Event) : list (list Message) :=
  omap (λ ev, match ev with LLMInvoke ms => Some ms | _ => None end) events.

(** The tool invocations, as tool name and input, in call order. *)
Definition tool_invocations (events : list Event) : list (string * string) :=
  omap (λ ev, match ev with ToolInvoke n i => Some (n, i) | _ => None end)
       events.

(** The queries sent to the retriever, in call order. *)
Definition retriever_queries (events : list Event) : list string :=
  omap (λ ev, match ev with RetrieverQuery q => Some q | _ => None end) events.

(** ** Sample agents *)

Definition call (name id : string) (args : list (string * string)) : ToolCall :=
  {| tc_name := name; tc_args := list_to_map args; tc_id := id |}.

Definition sample_docs : list Document :=
  [ {| page_content := "Algorithm X achieves envy-freeness" |};
    {| page_content := "EF1 allocations always exist" |} ].

(** A model that asks for one retrieval and answers once it sees a tool
    result. *)
Definition llm_retrieve_once (messages : list Message) : Outcome AIReply :=
  if existsb (λ m, match m with ToolMessage _ _ _ => true | _ => false end) messages
  then Ok {| reply_content := "It achieves envy-freeness (Document 1).";
             reply_tool_calls := [] |}
  else Ok {| reply_content := "";
             reply_tool_calls := [call "retriever_tool" "call_1" [("query", "Algorithm X")]] |}.

Definition agent_once : RAGAgent :=
  {| llm := llm_retrieve_once;
     retriever := λ _, Ok sample_docs;
     recursion_limit := DEFAULT_RECURSION_LIMIT |}.

(** A model that asks for a tool that is not registered and answers once
    it sees a tool result. *)
Definition llm_search_once (messages : list Message) : Outcome AIReply :=
  if existsb (λ m, match m with ToolMessage _ _ _ => true | _ => false end) messages
  then Ok {| reply_content := "I could not look that up.";
             reply_tool_calls := [] |}
  else Ok {| reply_content := "";
             reply_tool_calls := [call "web_search" "call_1" [("query", "Algorithm X")]] |}.

Definition agent_search_once : RAGAgent :=
  {| llm := llm_search_once;
     retriever := λ _, Ok sample_docs;
     recursion_limit := DEFAULT_RECURSION_LIMIT |}.

(** A model that requests an unregistered tool on every invocation. *)
Definition llm_always_search (messages : list Message) : Outcome AIReply :=
  Ok {| reply_content := "";
        reply_tool_calls := [call "web_search" "call_n" [("query", "more")]] |}.

Definition agent_searching : RAGAgent :=
  {| llm := llm_always_search;
     retriever := λ _, Ok [];
     recursion_limit := DEFAULT_RECURSION_LIMIT |}.

(** A model that requests an unregistered tool twelve times and answers
    at its thirteenth call; the call id counts the requests made. *)
Definition llm_search_twelve (messages : list Message) : Outcome AIReply :=
  match messages with
  | [_; ToolMessage id _ _] =>
      if Strings.String.length id <? 12
      then Ok {| reply_content := "";
                 reply_tool_calls := [call "web_search" (id +:+ "x") []] |}
      else Ok {| reply_content := "done"; reply_tool_calls := [] |}
  | _ => Ok {| reply_content := "";
               reply_tool_calls := [call "web_search" "x" []] |}
  end.

Definition agent_twelve_rounds : RAGAgent :=
  {| llm := llm_search_twelve;
     retriever := λ _, Ok [];
     recursion_limit := DEFAULT_RECURSION_LIMIT |}.

(** A model that answers directly. *)
Definition agent_direct : RAGAgent :=
  {| llm := λ _, Ok {| reply_content := "a"; reply_tool_calls := [] |};
     retriever := λ _, Ok [];
     recursion_limit := DEFAULT_RECURSION_LIMIT |}.


(** An assistant turn with three requests: an unregistered name, a
    retrieval with a [query], a retrieval without one. *)
Definition sample_requests : list ToolCall :=
  [ call "web_search" "call_a" [("query", "fair division")];
    call "retriever_tool" "call_b" [("query", "Algorithm X")];
    call "retriever_tool" "call_c" [("k", "5")] ].

Definition sample_turn : AgentState :=
  [HumanMessage "What does Algorithm X achieve?"; AIMessage "" sample_requests].

(** [RecursiveCharacterTextSplitter(chunk_size=1000, chunk_overlap=200)] *)
Definition chunk_size : nat := 1000.
Definition chunk_overlap : nat := 200.

(** A chat model that never gives a final answer: every reply carries a
    tool-call request. *)
Definition always_requests_tool (self : RAGAgent) : Prop :=
  ∀ messages, ∃ reply,
    llm self messages = Ok reply ∧ reply_tool_calls reply ≠ [].

(** [t['args'].get('query', '')] *)
Definition query_argument (t : ToolCall) : string :=
  default "" (tc_args t !! "query").

(** [t['name'] not in self.tools_dict] *)
Definition unregistered (self : RAGAgent) (t : ToolCall) : Prop :=
  tools_dict self !! tc_name t = None.

(** A chat model that only ever asks for tools that are not registered. *)
Definition requests_unregistered_only (self : RAGAgent) : Prop :=
  ∀ messages reply t,
    llm self messages = Ok reply → t ∈ reply_tool_calls reply →
    unregistered self t.

(** What a call to the model is made on, for question [question]: the
    system prompt, then either the question alone or tool results
    alone. *)
Definition model_input_shape (question : string) (input : list Message) : Prop :=
  ∃ rest, input = SystemMessage system_prompt :: rest ∧
    (rest = [HumanMessage question] ∨
     (rest ≠ [] ∧ Forall (λ m, is_Some (tool_result_key m)) rest)).

(** ** The [/ask] route *)

(** The parsed body of a request, as [request.get_json()] returns it. *)
#[warnings="-register-all"]
Inductive JSON : Type :=
| JNull
| JBool (b : bool)
| JNumber (literal : string)
| JString (s : string)
| JArray (items : list JSON)
| JObject (fields : gmap string JSON).

(** The request, as far as the route reads it: [request.get_json()],
    which raises on a body that is not JSON. *)
Record Request : Type := { get_json : Outcome JSON }.

(** [jsonify(body), status_code]; a bare [jsonify(body)] has status 200. *)
Record Response : Type := {
  body : gmap string string;
  status_code : nat
}.

Definition byte (n : nat) : Ascii.ascii := Ascii.ascii_of_nat n.

(** The characters [str.strip()] removes, each as its UTF-8 encoding:
    U+0009..U+000D, U+001C..U+001F, U+0020, U+0085, U+00A0, U+1680,
    U+2000..U+200A, U+2028, U+2029, U+202F, U+205F, U+3000. *)
Definition WHITESPACE : list (list Ascii.ascii) :=
  map (map byte)
    [ [9]; [10]; [11]; [12]; [13]; [28]; [29]; [30]; [31]; [32];
      [194; 133]; [194; 160]; [225; 154; 128];
      [226; 128; 128]; [226; 128; 129]; [226; 128; 130]; [226; 128; 131];
      [226; 128; 132]; [226; 128; 133]; [226; 128; 134]; [226; 128; 135];
      [226; 128; 136]; [226; 128; 137]; [226; 128; 138];
      [226; 128; 168]; [226; 128; 169]; [226; 128; 175];
      [226; 129; 159]; [227; 128; 128] ].

Fixpoint starts_with (w l : list Ascii.ascii) : bool :=
  match w, l with
  | [], _ => true
  | a :: w', b :: l' => bool_decide (a = b) && starts_with w' l'
  | _ :: _, [] => false
  end.

(** What follows the first character of [l] when that character is one
    of [pats]. *)
Fixpoint after_leading (pats : list (list Ascii.ascii))
    (l : list Ascii.ascii) : option (list Ascii.ascii) :=
  match pats with
  | [] => None
  | w :: pats' =>
      if starts_with w l then Some (drop (length w) l)
      else after_leading pats' l
  end.

(** Drop leading characters of [pats]; [steps] bounds the characters
    dropped. *)
Fixpoint drop_leading (pats : list (list Ascii.ascii)) (steps : nat)
    (l : list Ascii.ascii) : list Ascii.ascii :=
  match steps with
  | 0 => l
  | S steps' =>
      match after_leading pats l with
      | Some rest => drop_leading pats steps' rest
      | None => l
      end
  end.

Definition lstrip_bytes (l : list Ascii.ascii) : list Ascii.ascii :=
  drop_leading WHITESPACE (length l) l.

Definition rstrip_bytes (l : list Ascii.ascii) : list Ascii.ascii :=
  rev (drop_leading (map (@rev Ascii.ascii) WHITESPACE) (length l) (rev l)).

Definition strip_bytes (l : list Ascii.ascii) : list Ascii.ascii :=
  rstrip_bytes (lstrip_bytes l).

(** [s.strip()] *)
Definition strip (s : string) : string :=
  Strings.String.string_of_list_ascii
    (strip_bytes (Strings.String.list_ascii_of_string s)).

(** A text made of white space only. *)
Definition blank (s : string) : Prop :=
  ∃ spaces, Forall (λ w, w ∈ WHITESPACE) spaces ∧
    Strings.String.list_ascii_of_string s = concat spaces.

Module Routes.

(** [print(text)]: [console text] is what writing [text] to [sys.stdout]
    does; it raises when the stream cannot encode the text. *)
Definition print (console : string → Outcome ()) (text : string) : M () :=
  Run [] (console text).

(** [data.get]: only a dict has the method. *)
Definition getattr_get (data : JSON) : M (gmap string JSON) :=
  match data with
  | JObject fields => ret fields
  | _ => raise AttributeError
  end.

(** [value.strip()]: only a string has the method. *)
Definition call_strip (value : JSON) : M string :=
  match value with
  | JString s => ret (strip s)
  | _ => raise AttributeError
  end.

Definition NO_QUESTION : Response :=
  {| body := {[ "error" := "No question provided" ]}; status_code := 400 |}.

Definition SERVER_ERROR : Response :=
  {| body := {[ "error" := "An error occurred while processing your question";
                "status" := "error" ]};
     status_code := 500 |}.

Definition success (answer : string) : Response :=
  {| body := {[ "answer" := answer; "status" := "success" ]};
     status_code := 200 |}.

(** The view function of [@app.route('/ask', methods=['POST'])];
    [rag_agent] is the module-level agent.  The two [print] calls of the
    [try] block (lines 533 and 538) write the question and the answer and
    are part of it.  The [print] of the handler (line 546) writes the
    exception's own message, which is ASCII, and is taken to succeed. *)
Definition ask_question (rag_agent : RAGAgent) (console : string → Outcome ())
    (request : Request) : M Response :=
  try_except
    (data ← Run [] (get_json request);
     fields ← getattr_get data;
     question ← call_strip (default (JString "") (fields !! "question"));
     if decide (question = "") then ret NO_QUESTION
     else
       _ ← print console ("Received question: " +:+ question);
       answer ← ask_question rag_agent question;
       _ ← print console ("RAG Agent response: " +:+ answer);
       ret (success answer))
    (λ e, ret SERVER_ERROR).

End Routes.


(** A console that takes ASCII only. *)
Definition console_ascii (text : string) : Outcome () :=
  if forallb (λ c, Ascii.nat_of_ascii c <? 128)
             (Strings.String.list_ascii_of_string text)
  then Ok () else Raise UnicodeEncodeError.

(** A model whose answer is not ASCII. *)
Definition agent_arrow : RAGAgent :=
  {| llm := λ _, Ok {| reply_content :=
                         Strings.String.string_of_list_ascii
                           (map byte [65; 32; 226; 134; 146; 32; 66]);
                       reply_tool_calls := [] |};
     retriever := λ _, Ok [];
     recursion_limit := DEFAULT_RECURSION_LIMIT |}.

(** A request whose body is [{"question": text}]. *)
Definition post_question (text : string) : Request :=
  {| get_json := Ok (JObject {[ "question" := JString text ]}) |}.


(** ** Laws of the effect monad *)

Section MonadLaws.
Context {A B : Type}.
Implicit Types (m : M A) (k : A → M B).

Lemma outcome_bind m k :
  outcome (m ≫= k) =
    match outcome m with Ok a => outcome (k a) | Raise e => Raise e end.
Proof. unfold mbind, M_bind, bind. by destruct (outcome m). Qed.

Lemma log_bind m k :
  log (m ≫= k) =
    match outcome m with Ok a => log m ++ log (k a) | Raise _ => log m end.
Proof. unfold mbind, M_bind, bind. by destruct (outcome m). Qed.

Lemma bind_ret_l (a : A) k : ret a ≫= k = k a.
Proof. unfold mbind, M_bind, bind. simpl. by destruct (k a). Qed.

Lemma bind_raise_l (e : Exception) k : raise e ≫= k = raise e.
Proof. reflexivity. Qed.

Lemma outcome_bind_ok m k a :
  outcome m = Ok a → outcome (m ≫= k) = outcome (k a).
Proof. intros H. by rewrite outcome_bind, H. Qed.

Lemma outcome_bind_raise m k e :
  outcome m = Raise e → outcome (m ≫= k) = Raise e.
Proof. intros H. by rewrite outcome_bind, H. Qed.

Lemma log_bind_prefix m k : log m `prefix_of` log (m ≫= k).
Proof.
  rewrite log_bind. destruct (outcome m); [by apply prefix_app_r | done].
Qed.
End MonadLaws.

Lemma outcome_try_except {A} (body : M A) (handler : Exception → M A) :
  outcome (try_except body handler) =
    match outcome body with Ok a => Ok a | Raise e => outcome (handler e) end.
Proof. unfold try_except. by destruct (outcome body) eqn:E. Qed.

Lemma log_try_except {A} (body : M A) (handler : Exception → M A) :
  log (try_except body handler) =
    match outcome body with
    | Ok _ => log body
    | Raise e => log body ++ log (handler e)
    end.
Proof. unfold try_except. by destruct (outcome body). Qed.

Lemma last_item_Some {A} (l : list A) (x : A) :
  last l = Some x → last_item l = ret x.
Proof. unfold last_item. by intros ->. Qed.

Lemma last_item_nil {A} : last_item (@nil A) = raise IndexError.
Proof. reflexivity. Qed.

Lemma llm_inputs_app (l1 l2 : list Event) :
  llm_inputs (l1 ++ l2) = llm_inputs l1 ++ llm_inputs l2.
Proof. apply omap_app. Qed.

Lemma retriever_queries_app (l1 l2 : list Event) :
  retriever_queries (l1 ++ l2) = retriever_queries l1 ++ retriever_queries l2.
Proof. apply omap_app. Qed.

(** ** The continuation predicate *)

Lemma should_continue_last (state : AgentState) (m : Message) :
  last state = Some m →
  should_continue state =
    ret (match tool_calls m with
         | Some calls => bool_decide (0 < length calls)
         | None => false
         end).
Proof.
  intros Hlast. unfold should_continue.
  rewrite (last_item_Some _ _ Hlast), bind_ret_l.
  unfold hasattr_tool_calls, getattr_tool_calls.
  destruct (tool_calls m); [by rewrite bind_ret_l | done].
Qed.

(** Without the guard the attribute access itself would raise. *)
Lemma getattr_tool_calls_unguarded (m : Message) :
  tool_calls m = None → getattr_tool_calls m = raise AttributeError.
Proof. unfold getattr_tool_calls. by intros ->. Qed.

Lemma should_continue_true_iff (state : AgentState) (m : Message) :
  last state = Some m →
  should_continue state = ret true ↔
    ∃ calls, tool_calls m = Some calls ∧ calls ≠ [].
Proof.
  intros Hlast. rewrite (should_continue_last _ _ Hlast). split.
  - intros H. destruct (tool_calls m) as [calls|]; [|by inversion H].
    exists calls. split; [done|]. intros ->. inversion H.
  - intros (calls & -> & Hne). destruct calls; [done|].
    f_equal.
Qed.

(** C10. [should_continue] raises on no message type: on a state that has
    a last message it returns a boolean, and it returns [False] whenever
    that message has no [tool_calls] attribute (the [hasattr] guard keeps
    the attribute from being read) or an empty [tool_calls] list. *)
Theorem should_continue_total (state : AgentState) (m : Message) :
  last state = Some m →
  (∃ b, should_continue state = ret b) ∧
  (tool_calls m = None ∨ tool_calls m = Some [] →
   should_continue state = ret false).
Proof.
  intros Hlast. rewrite (should_continue_last _ _ Hlast). split.
  - eauto.
  - by intros [-> | ->].
Qed.

Lemma should_continue_total_witness :
  should_continue [HumanMessage "q"; ToolMessage "c1" "retriever_tool" "r"]
    = ret false.
Proof.
  exact (proj2 (should_continue_total
                  [HumanMessage "q"; ToolMessage "c1" "retriever_tool" "r"]
                  (ToolMessage "c1" "retriever_tool" "r") eq_refl)
               (or_introl eq_refl)).
Defined.

(** ** The retrieval tool *)

Lemma enumerate_from_length {A} (start : nat) (l : list A) :
  length (enumerate_from start l) = length l.
Proof. revert start. induction l as [|x l IH]; intros start; simpl; auto. Qed.

Lemma enumerate_from_lookup {A} (start i : nat) (l : list A) (x : A) :
  l !! i = Some x → enumerate_from start l !! i = Some (start + i, x).
Proof.
  revert start i. induction l as [|y l IH]; intros start [|i] H; simpl in *;
    try done.
  - inversion H. by rewrite Nat.add_0_r.
  - rewrite (IH (S start) i H). f_equal. f_equal. lia.
Qed.

Lemma retriever_tool_log (self : RAGAgent) (query : string) :
  log (retriever_tool self query) = [RetrieverQuery query].
Proof.
  unfold retriever_tool. rewrite log_bind. simpl.
  destruct (retriever self query) as [[|d docs]|e]; reflexivity.
Qed.

Lemma retriever_tool_outcome (self : RAGAgent) (query : string) :
  outcome (retriever_tool self query) =
    match retriever self query with
    | Ok [] => Ok NO_RELEVANT_INFORMATION
    | Ok docs => Ok (join (nl +:+ nl) (map document_block (enumerate docs)))
    | Raise e => Raise e
    end.
Proof.
  unfold retriever_tool. rewrite outcome_bind. simpl.
  destruct (retriever self query) as [[|d docs]|e]; reflexivity.
Qed.

(** X14.  The function body of [retriever_tool], when it is run on a
    query: one retrieval; the fixed sentinel when the retriever returns
    no document; otherwise the blocks [Document 1:], [Document 2:], ...
    joined by a blank line, block [i] (from 0) being the label with
    ordinal [i+1], a newline and the text of the [i]-th retrieved
    document, in retrieval order.  An exception of the retriever passes
    through the body unchanged. *)
Theorem retriever_tool_text (self : RAGAgent) (query : string) :
  log (retriever_tool self query) = [RetrieverQuery query] ∧
  (∀ docs, retriever self query = Ok docs →
     ∃ blocks,
       outcome (retriever_tool self query) =
         Ok (match docs with
             | [] => NO_RELEVANT_INFORMATION
             | _ => join (nl +:+ nl) blocks
             end) ∧
       length blocks = length docs ∧
       ∀ i doc, docs !! i = Some doc →
         blocks !! i =
           Some ("Document " +:+ str_of_nat (i + 1) +:+ ":" +:+ nl
                   +:+ page_content doc)) ∧
  (∀ e, retriever self query = Raise e →
     outcome (retriever_tool self query) = Raise e).
Proof.
  split; [apply retriever_tool_log|]. split.
  - intros docs Hdocs.
    exists (map document_block (enumerate docs)).
    rewrite retriever_tool_outcome, Hdocs. split; [by destruct docs|]. split.
    + unfold enumerate. by rewrite length_map, enumerate_from_length.
    + intros i doc Hi. unfold enumerate.
      rewrite list_lookup_fmap, (enumerate_from_lookup 0 i docs doc Hi).
      reflexivity.
  - intros e He. by rewrite retriever_tool_outcome, He.
Qed.

Lemma retriever_tool_text_witness :
  outcome (retriever_tool agent_once "Algorithm X") =
    Ok ("Document 1:" +:+ nl +:+ "Algorithm X achieves envy-freeness"
          +:+ nl +:+ nl +:+
        "Document 2:" +:+ nl +:+ "EF1 allocations always exist") ∧
  outcome (retriever_tool agent_direct "Algorithm X") =
    Ok "No relevant information found in the research paper.".
Proof.
  split.
  - destruct (proj1 (proj2 (retriever_tool_text agent_once "Algorithm X"))
                sample_docs eq_refl) as (blocks & Hout & Hlen & Hblocks).
    rewrite Hout.
    destruct blocks as [|b1 [|b2 [|b3 blocks]]]; try discriminate Hlen.
    pose proof (Hblocks 0 _ eq_refl) as H1.
    pose proof (Hblocks 1 _ eq_refl) as H2.
    simpl in H1, H2. inversion H1. inversion H2. reflexivity.
  - destruct (proj1 (proj2 (retriever_tool_text agent_direct "Algorithm X"))
                [] eq_refl) as (blocks & Hout & _).
    exact Hout.
Defined.

(** X1.  The sentinel is told apart from retrieved text: when the retriever
    returns a list, the tool answers with the sentinel exactly when the
    list is empty. *)
Theorem retriever_tool_sentinel_iff_empty (self : RAGAgent) (query : string)
    (docs : list Document) :
  retriever self query = Ok docs →
  outcome (retriever_tool self query) = Ok NO_RELEVANT_INFORMATION ↔ docs = [].
Proof.
  intros Hdocs. rewrite retriever_tool_outcome, Hdocs. split.
  - destruct docs as [|d [|d' rest]]; [done| |];
      intros H; vm_compute in H; discriminate H.
  - by intros ->.
Qed.

Lemma retriever_tool_sentinel_iff_empty_witness :
  outcome (retriever_tool agent_direct "anything")
    = Ok NO_RELEVANT_INFORMATION ∧
  outcome (retriever_tool agent_once "anything")
    ≠ Ok NO_RELEVANT_INFORMATION.
Proof.
  split.
  - by apply (retriever_tool_sentinel_iff_empty agent_direct "anything" []).
  - intros H.
    by apply (retriever_tool_sentinel_iff_empty agent_once "anything"
                sample_docs eq_refl) in H.
Defined.


(** ** The acting step *)

(** The one registered name is [retriever_tool]; what is registered under
    it is the tool object. *)
Lemma tools_dict_lookup (self : RAGAgent) (name : string) :
  tools_dict self !! name =
    if decide (name = "retriever_tool") then Some (retriever_tool_invoke self)
    else None.
Proof.
  unfold tools_dict. case_decide as Hname.
  - subst name. apply lookup_singleton_eq.
  - apply lookup_singleton_ne. congruence.
Qed.

Lemma unregistered_dec (self : RAGAgent) (t : ToolCall) :
  unregistered self t ∨ tc_name t = "retriever_tool".
Proof.
  unfold unregistered. rewrite tools_dict_lookup. case_decide; auto.
Qed.

Lemma unregistered_name (self : RAGAgent) (t : ToolCall) :
  unregistered self t ↔ tc_name t ≠ "retriever_tool".
Proof.
  unfold unregistered. rewrite tools_dict_lookup. by case_decide.
Qed.

Lemma tool_call_result_unregistered (self : RAGAgent) (t : ToolCall) :
  unregistered self t → tool_call_result self t = ret INCORRECT_TOOL_NAME.
Proof. unfold unregistered, tool_call_result. by intros ->. Qed.

Lemma tool_call_result_registered (self : RAGAgent) (t : ToolCall) :
  ¬ unregistered self t →
  tool_call_result self t =
    Run [ToolInvoke (tc_name t) (query_argument t)]
        (Raise ToolValidationError).
Proof.
  rewrite unregistered_name. intros Hname.
  assert (tc_name t = "retriever_tool") as Hreg.
  { by destruct (decide (tc_name t = "retriever_tool")). }
  unfold tool_call_result. rewrite tools_dict_lookup, Hreg. done.
Qed.

(** The requests of a turn either all name unregistered tools, or there
    is a first one that names the registered tool. *)
Lemma first_registered (self : RAGAgent) (calls : list ToolCall) :
  Forall (unregistered self) calls ∨
  ∃ before t after,
    calls = before ++ t :: after ∧
    Forall (unregistered self) before ∧ ¬ unregistered self t.
Proof.
  induction calls as [|t calls IH]; [by left|].
  destruct (unregistered_dec self t) as [Ht|Ht].
  - destruct IH as [Hall|(before & t' & after & -> & Hbefore & Ht')].
    + left. by constructor.
    + right. exists (t :: before), t', after.
      split; [done|]. split; [by constructor | done].
  - right. exists [], t, calls. split; [done|]. split; [constructor|].
    rewrite unregistered_name. by intros Hne.
Qed.

Lemma take_action_loop_unregistered (self : RAGAgent)
    (pending : list ToolCall) (acc : list Message) :
  Forall (unregistered self) pending →
  take_action_loop self pending acc =
    ret (acc ++ map (λ t, ToolMessage (tc_id t) (tc_name t)
                            INCORRECT_TOOL_NAME) pending).
Proof.
  intros Hall. revert acc.
  induction Hall as [|t rest Ht _ IH]; intros acc; simpl.
  - by rewrite app_nil_r.
  - rewrite (tool_call_result_unregistered _ _ Ht), bind_ret_l, IH.
    by rewrite <- app_assoc.
Qed.

Lemma take_action_loop_registered (self : RAGAgent)
    (before after : list ToolCall) (t : ToolCall) (acc : list Message) :
  Forall (unregistered self) before → ¬ unregistered self t →
  take_action_loop self (before ++ t :: after) acc =
    Run [ToolInvoke (tc_name t) (query_argument t)]
        (Raise ToolValidationError).
Proof.
  intros Hbefore Ht. revert acc.
  induction Hbefore as [|t' before Ht' _ IH]; intros acc; simpl.
  - by rewrite (tool_call_result_registered _ _ Ht).
  - by rewrite (tool_call_result_unregistered _ _ Ht'), bind_ret_l, IH.
Qed.

Lemma take_action_last (self : RAGAgent) (state : AgentState)
    (text : string) (calls : list ToolCall) :
  last state = Some (AIMessage text calls) →
  take_action self state = take_action_loop self calls [].
Proof.
  intros Hlast. unfold take_action.
  rewrite (last_item_Some _ _ Hlast), bind_ret_l.
  unfold getattr_tool_calls. cbn [tool_calls]. by rewrite bind_ret_l.
Qed.



Lemma take_action_loop_log (self : RAGAgent) (pending : list ToolCall)
    (acc : list Message) :
  log (take_action_loop self pending acc) = [] ∨
  ∃ t, t ∈ pending ∧
    log (take_action_loop self pending acc)
      = [ToolInvoke (tc_name t) (query_argument t)].
Proof.
  destruct (first_registered self pending)
    as [Hall|(before & t & after & -> & Hbefore & Ht)].
  - left. by rewrite take_action_loop_unregistered.
  - right. exists t. split; [set_solver|].
    by rewrite take_action_loop_registered.
Qed.

Lemma take_action_log (self : RAGAgent) (state : AgentState) :
  log (take_action self state) = [] ∨
  ∃ name input, log (take_action self state) = [ToolInvoke name input].
Proof.
  unfold take_action, last_item.
  destruct (last state) as [m|]; [|by left].
  rewrite bind_ret_l. unfold getattr_tool_calls.
  destruct (tool_calls m) as [calls|]; [|by left].
  rewrite bind_ret_l.
  destruct (take_action_loop_log self calls []) as [->|(t & _ & ->)];
    [by left | right; eauto].
Qed.

(** X2.  [take_action] never queries the retriever and invokes a tool at
    most once, whatever the state.  It stops at the first request that
    names the registered tool: the corrective results of the requests
    before it are dropped, the requests after it are not looked at, and
    the tool's validation error is what [take_action] raises. *)
Theorem take_action_fail_fast (self : RAGAgent) (state : AgentState) :
  retriever_queries (log (take_action self state)) = [] ∧
  length (tool_invocations (log (take_action self state))) ≤ 1 ∧
  (∀ text before t after,
     last state = Some (AIMessage text (before ++ t :: after)) →
     Forall (unregistered self) before →
     tc_name t = "retriever_tool" →
     take_action self state =
       Run [ToolInvoke "retriever_tool" (query_argument t)]
           (Raise ToolValidationError)).
Proof.
  split; [|split].
  - by destruct (take_action_log self state) as [->|(name & input & ->)].
  - destruct (take_action_log self state) as [->|(name & input & ->)];
      simpl; lia.
  - intros text before t after Hlast Hbefore Hname.
    rewrite (take_action_last _ _ _ _ Hlast).
    rewrite take_action_loop_registered, Hname; [done..|].
    rewrite unregistered_name. by intros Hne.
Qed.

Lemma take_action_fail_fast_witness :
  take_action agent_once sample_turn =
    Run [ToolInvoke "retriever_tool" "Algorithm X"]
        (Raise ToolValidationError).
Proof.
  refine (proj2 (proj2 (take_action_fail_fast agent_once sample_turn)) ""
            [call "web_search" "call_a" [("query", "fair division")]]
            (call "retriever_tool" "call_b" [("query", "Algorithm X")])
            [call "retriever_tool" "call_c" [("k", "5")]] eq_refl _ eq_refl).
  repeat constructor.
Defined.

(** C6 at a concrete query.  The model asks for the retrieval tool with
    the query [Algorithm X].  The function body, called on that query,
    would return the labelled documents; the tool registered in
    [tools_dict] is invoked instead, raises before the body runs and
    before the retriever is queried, and the question is answered with
    the fallback text after a single call to the model. *)
Theorem registered_tool_never_returns :
  let request := call "retriever_tool" "call_1" [("query", "Algorithm X")] in
  outcome (retriever_tool agent_once "Algorithm X") =
    Ok ("Document 1:" +:+ nl +:+ "Algorithm X achieves envy-freeness"
          +:+ nl +:+ nl +:+
        "Document 2:" +:+ nl +:+ "EF1 allocations always exist") ∧
  tool_call_result agent_once request =
    Run [ToolInvoke "retriever_tool" "Algorithm X"]
        (Raise ToolValidationError) ∧
  ask_question agent_once "What does Algorithm X achieve?" =
    Run [LLMInvoke [SystemMessage system_prompt;
                    HumanMessage "What does Algorithm X achieve?"];
         ToolInvoke "retriever_tool" "Algorithm X"]
        (Ok FALLBACK_ANSWER).
Proof. cbv zeta. repeat split; vm_compute; reflexivity. Qed.

Lemma superstep_acting (self : RAGAgent) (state : AgentState) :
  outcome (superstep self node_retriever_agent state) =
    match outcome (take_action self state) with
    | Ok results => Ok (node_llm, results)
    | Raise e => Raise e
    end.
Proof.
  unfold superstep. cbn [run_node next_node]. rewrite outcome_bind.
  destruct (outcome (take_action self state)); [|done].
  by rewrite bind_ret_l.
Qed.

Lemma superstep_acting_log (self : RAGAgent) (state : AgentState) :
  log (superstep self node_retriever_agent state) = log (take_action self state).
Proof.
  unfold superstep. cbn [run_node next_node]. rewrite log_bind.
  destruct (outcome (take_action self state)); [|done].
  rewrite bind_ret_l. simpl. by rewrite app_nil_r.
Qed.

(** C5 on a concrete turn.  The model asks for a tool that is not
    registered.  The acting step produces the one tool result the request
    calls for, with the request's id and name, but the result is not
    appended to the state: it replaces it.  The state handed to the next
    reasoning step is the tool result alone, the assistant message whose
    request it answers being gone, and the model is called on the system
    prompt and that result only. *)
Theorem acting_step_replaces_state :
  let question := HumanMessage "What does Algorithm X achieve?" in
  let request :=
    AIMessage "" [call "web_search" "call_1" [("query", "Algorithm X")]] in
  let result := ToolMessage "call_1" "web_search" INCORRECT_TOOL_NAME in
  outcome (superstep agent_search_once node_retriever_agent [question; request])
    = Ok (node_llm, [result]) ∧
  [result] ≠ [question; request] ++ [result] ∧
  outcome (superstep agent_search_once node_retriever_agent [request])
    = Ok (node_llm, [result]) ∧
  [result] ≠ [request] ++ [result] ∧
  llm_inputs
    (log (ask_question agent_search_once "What does Algorithm X achieve?"))
    = [ [SystemMessage system_prompt; question];
        [SystemMessage system_prompt; result] ].
Proof.
  cbv zeta. repeat split; try (vm_compute; reflexivity); discriminate.
Qed.

(** X16.  An acting step completes only when every request of the turn
    names an unregistered tool.  It then hands over to the reasoning
    node, and the state it leaves is one tool-result message per request,
    in request order, each with its request's call id and tool name and
    the corrective text. *)
Theorem acting_step_results (self : RAGAgent) (state state' : AgentState)
    (text : string) (calls : list ToolCall) (next : Node) :
  last state = Some (AIMessage text calls) →
  outcome (superstep self node_retriever_agent state) = Ok (next, state') →
  next = node_llm ∧
  Forall (unregistered self) calls ∧
  state' = map (λ t, ToolMessage (tc_id t) (tc_name t) INCORRECT_TOOL_NAME)
               calls ∧
  tool_result_key <$> state' = (λ t, Some (tc_id t, tc_name t)) <$> calls.
Proof.
  intros Hlast. rewrite superstep_acting, (take_action_last _ _ _ _ Hlast).
  destruct (first_registered self calls)
    as [Hall|(before & t & after & -> & Hbefore & Ht)].
  - rewrite take_action_loop_unregistered by done. intros [= <- <-].
    split; [done|]. split; [done|]. split; [done|].
    clear. induction calls as [|t calls IH]; [done|].
    cbn [map]. rewrite !fmap_cons. by f_equal.
  - by rewrite take_action_loop_registered.
Qed.

Lemma acting_step_results_witness :
  ∃ state',
    outcome (superstep agent_search_once node_retriever_agent
               [AIMessage "" [call "web_search" "call_1" [];
                              call "calculator" "call_2" []]])
      = Ok (node_llm, state') ∧
    tool_result_key <$> state' =
      [Some ("call_1", "web_search"); Some ("call_2", "calculator")].
Proof.
  eexists. split; [vm_compute; reflexivity|].
  refine (proj2 (proj2 (proj2 (acting_step_results agent_search_once
            [AIMessage "" [call "web_search" "call_1" [];
                           call "calculator" "call_2" []]] _ ""
            [call "web_search" "call_1" []; call "calculator" "call_2" []]
            node_llm eq_refl _)))).
  vm_compute. reflexivity.
Defined.

(** ** The reasoning step *)

Lemma call_llm_log (self : RAGAgent) (state : AgentState) :
  log (call_llm self state) = [LLMInvoke (SystemMessage system_prompt :: state)].
Proof.
  unfold call_llm. rewrite log_bind. simpl.
  by destruct (llm self _).
Qed.

Lemma call_llm_outcome (self : RAGAgent) (state : AgentState) :
  outcome (call_llm self state) =
    match llm self (SystemMessage system_prompt :: state) with
    | Ok reply => Ok [reply_message reply]
    | Raise e => Raise e
    end.
Proof.
  unfold call_llm. rewrite outcome_bind. simpl.
  by destruct (llm self _).
Qed.

Lemma should_continue_reply (reply : AIReply) :
  should_continue [reply_message reply] =
    ret (match reply_tool_calls reply with [] => false | _ => true end).
Proof.
  rewrite (should_continue_last _ (reply_message reply)) by done.
  simpl. by destruct (reply_tool_calls reply).
Qed.

(** The transition out of the reasoning node: the state becomes the
    reply alone, and the next node is the acting node exactly when the
    reply carries a request. *)
Lemma superstep_reasoning (self : RAGAgent) (state : AgentState) :
  outcome (superstep self node_llm state) =
    match llm self (SystemMessage system_prompt :: state) with
    | Ok reply =>
        Ok (match reply_tool_calls reply with
            | [] => END
            | _ => node_retriever_agent
            end, [reply_message reply])
    | Raise e => Raise e
    end.
Proof.
  unfold superstep. cbn [run_node next_node]. rewrite outcome_bind.
  rewrite call_llm_outcome.
  destruct (llm self _) as [reply|e]; [|done].
  unfold channel_write. rewrite should_continue_reply, bind_ret_l.
  rewrite bind_ret_l. simpl. by destruct (reply_tool_calls reply).
Qed.

Lemma superstep_reasoning_log (self : RAGAgent) (state : AgentState) :
  log (superstep self node_llm state) =
    [LLMInvoke (SystemMessage system_prompt :: state)].
Proof.
  unfold superstep. cbn [run_node next_node]. rewrite log_bind.
  rewrite call_llm_outcome, call_llm_log.
  destruct (llm self _) as [reply|e]; [|done].
  unfold channel_write. rewrite should_continue_reply, bind_ret_l.
  by rewrite bind_ret_l.
Qed.

Lemma superstep_acting_llm_inputs (self : RAGAgent) (state : AgentState) :
  llm_inputs (log (superstep self node_retriever_agent state)) = [].
Proof.
  rewrite superstep_acting_log.
  by destruct (take_action_log self state) as [->|(name & input & ->)].
Qed.

Lemma superstep_acting_retriever_queries (self : RAGAgent)
    (state : AgentState) :
  retriever_queries (log (superstep self node_retriever_agent state)) = [].
Proof.
  rewrite superstep_acting_log.
  by destruct (take_action_log self state) as [->|(name & input & ->)].
Qed.

Lemma pregel_loop_exhausted (self : RAGAgent) (node : Node)
    (state : AgentState) :
  pregel_loop self 0 node state = raise GraphRecursionError.
Proof. reflexivity. Qed.

(** [END] has no outgoing edge: a run that arrives there with a step
    left stops with the state unchanged. *)
Lemma pregel_loop_END (self : RAGAgent) (budget : nat) (state : AgentState) :
  pregel_loop self (S budget) END state = ret state.
Proof. reflexivity. Qed.

Lemma pregel_loop_step (self : RAGAgent) (budget : nat) (node : Node)
    (state : AgentState) :
  node ≠ END →
  pregel_loop self (S budget) node state =
    superstep self node state ≫= λ config,
      pregel_loop self budget config.1 config.2.
Proof. by destruct node. Qed.

Lemma pregel_loop_reasoning (self : RAGAgent) (budget : nat)
    (state : AgentState) :
  pregel_loop self (S budget) node_llm state =
    superstep self node_llm state ≫= λ config,
      pregel_loop self budget config.1 config.2.
Proof. reflexivity. Qed.

Lemma pregel_loop_acting (self : RAGAgent) (budget : nat)
    (state : AgentState) :
  pregel_loop self (S budget) node_retriever_agent state =
    superstep self node_retriever_agent state ≫= λ config,
      pregel_loop self budget config.1 config.2.
Proof. reflexivity. Qed.

Lemma pregel_loop_END_log (self : RAGAgent) (budget : nat)
    (state : AgentState) :
  log (pregel_loop self budget END state) = [].
Proof. by destruct budget. Qed.

(** C2 on concrete runs.  With a model that answers at once, the state
    after the reasoning step, which is also the state the graph returns,
    is the reply alone and not the question followed by the reply.  With
    a model that first asks for a tool that is not registered, the state
    handed to the acting node is again the reply alone, and the second
    reasoning call is made on the system prompt and the tool result,
    without the question and without the assistant message whose request
    the tool result answers. *)
Theorem reasoning_step_replaces_history :
  let question := HumanMessage "What does Algorithm X achieve?" in
  let request :=
    AIMessage "" [call "web_search" "call_1" [("query", "Algorithm X")]] in
  outcome (superstep agent_direct node_llm [HumanMessage "q"])
    = Ok (END, [AIMessage "a" []]) ∧
  outcome (rag_agent_invoke agent_direct [HumanMessage "q"])
    = Ok [AIMessage "a" []] ∧
  [AIMessage "a" []] ≠ [HumanMessage "q"] ++ [AIMessage "a" []] ∧
  outcome (superstep agent_search_once node_llm [question])
    = Ok (node_retriever_agent, [request]) ∧
  [request] ≠ [question] ++ [request] ∧
  llm_inputs
    (log (ask_question agent_search_once "What does Algorithm X achieve?"))
    = [ [SystemMessage system_prompt; question];
        [SystemMessage system_prompt;
         ToolMessage "call_1" "web_search"
           "Incorrect Tool Name, please use the available tool."] ].
Proof.
  cbv zeta. repeat split; try (vm_compute; reflexivity); discriminate.
Qed.

(** ** Runs of the graph *)

Lemma pregel_loop_half_budget (self : RAGAgent) (budget : nat) (node : Node)
    (state : AgentState) :
  2 * length (llm_inputs (log (pregel_loop self budget node state)))
    ≤ budget + match node with node_llm => 1 | _ => 0 end.
Proof.
  revert node state. induction budget as [|budget IH]; intros node state.
  - simpl. lia.
  - destruct node.
    + rewrite pregel_loop_reasoning, log_bind.
      rewrite superstep_reasoning, superstep_reasoning_log.
      destruct (llm self _) as [reply|e]; [|simpl; lia].
      rewrite llm_inputs_app, length_app. cbn [fst snd].
      destruct (reply_tool_calls reply).
      * rewrite pregel_loop_END_log. simpl. lia.
      * specialize (IH node_retriever_agent [reply_message reply]).
        simpl in *. lia.
    + rewrite pregel_loop_acting, log_bind.
      rewrite superstep_acting.
      pose proof (superstep_acting_llm_inputs self state) as Hnone.
      destruct (outcome (take_action self state)) as [results|e].
      * rewrite llm_inputs_app, length_app, Hnone. cbn [fst snd].
        specialize (IH node_llm results). simpl in *. lia.
      * rewrite Hnone. simpl. lia.
    + rewrite pregel_loop_END. simpl. lia.
Qed.

Lemma pregel_loop_llm_calls (self : RAGAgent) (budget : nat) (node : Node)
    (state : AgentState) :
  length (llm_inputs (log (pregel_loop self budget node state))) ≤ budget.
Proof.
  pose proof (pregel_loop_half_budget self budget node state) as Hhalf.
  destruct budget; [by simpl|]. destruct node; lia.
Qed.

Lemma pregel_loop_no_retrieval (self : RAGAgent) (budget : nat) (node : Node)
    (state : AgentState) :
  retriever_queries (log (pregel_loop self budget node state)) = [].
Proof.
  revert node state. induction budget as [|budget IH]; intros node state;
    [done|].
  destruct node; [| |done].
  - rewrite pregel_loop_reasoning, log_bind, superstep_reasoning_log.
    destruct (outcome (superstep self node_llm state)); [|done].
    by rewrite retriever_queries_app, IH.
  - rewrite pregel_loop_acting, log_bind.
    pose proof (superstep_acting_retriever_queries self state) as Hnone.
    destruct (outcome (superstep self node_retriever_agent state));
      [|done].
    by rewrite retriever_queries_app, Hnone, IH.
Qed.

(** With a model that always requests a tool, no run from a node other
    than [END] returns. *)
Lemma pregel_loop_never_done (self : RAGAgent) (budget : nat) (node : Node)
    (state : AgentState) :
  always_requests_tool self → node ≠ END →
  ∃ e, outcome (pregel_loop self budget node state) = Raise e.
Proof.
  intros Hllm. revert node state.
  induction budget as [|budget IH]; intros node state Hnode.
  - by eexists.
  - rewrite pregel_loop_step, outcome_bind by done.
    destruct node; [| |done].
    + rewrite superstep_reasoning.
      destruct (Hllm (SystemMessage system_prompt :: state))
        as (reply & -> & Hcalls).
      destruct (reply_tool_calls reply); [done|]. by apply IH.
    + rewrite superstep_acting.
      destruct (outcome (take_action self state)); [|by eexists].
      by apply IH.
Qed.

(** With a model that always requests tools, and unregistered ones only,
    the run cycles between the two nodes until the budget is used up,
    the model being called at every other superstep. *)
Lemma pregel_loop_exhausts (self : RAGAgent) (budget : nat) (node : Node)
    (state : AgentState) :
  always_requests_tool self →
  requests_unregistered_only self →
  node = node_llm ∨
    (node = node_retriever_agent ∧
     ∃ reply input, state = [reply_message reply] ∧
       llm self input = Ok reply) →
  outcome (pregel_loop self budget node state) = Raise GraphRecursionError ∧
  length (llm_inputs (log (pregel_loop self budget node state)))
    = (budget + match node with node_llm => 1 | _ => 0 end) / 2.
Proof.
  intros Hllm Hunknown. revert node state.
  induction budget as [|budget IH]; intros node state Hnode.
  - split; [done|]. by destruct Hnode as [->|[-> _]].
  - destruct Hnode as [->|[-> (reply & input & -> & Hreply)]].
    + rewrite pregel_loop_reasoning, outcome_bind, log_bind.
      rewrite superstep_reasoning, superstep_reasoning_log.
      destruct (Hllm (SystemMessage system_prompt :: state))
        as (reply & Hreply & Hcalls).
      rewrite Hreply.
      destruct (reply_tool_calls reply) as [|t calls] eqn:Hrequests;
        [done|].
      cbn [fst snd].
      destruct (IH node_retriever_agent [reply_message reply]) as [-> Hlen].
      { right. split; [done|]. eauto. }
      split; [done|]. rewrite llm_inputs_app, length_app, Hlen. simpl length.
      replace (S budget + 1) with (budget + 0 + 1 * 2) by lia.
      rewrite Nat.div_add by lia. lia.
    + assert (take_action self [reply_message reply] =
                ret (map (λ t, ToolMessage (tc_id t) (tc_name t)
                                 INCORRECT_TOOL_NAME)
                         (reply_tool_calls reply))) as Hact.
      { rewrite (take_action_last _ _ (reply_content reply)
                   (reply_tool_calls reply)) by done.
        apply take_action_loop_unregistered. apply Forall_forall.
        intros t Ht. by apply (Hunknown input reply). }
      rewrite pregel_loop_acting, outcome_bind, log_bind.
      rewrite superstep_acting, superstep_acting_log, Hact.
      cbn [outcome log fst snd ret]. rewrite app_nil_l.
      destruct (IH node_llm
                  (map (λ t, ToolMessage (tc_id t) (tc_name t)
                               INCORRECT_TOOL_NAME)
                       (reply_tool_calls reply))) as [-> ->]; [by left|].
      split; [done|]. f_equal. lia.
Qed.

Lemma ask_question_via_outcome (invoke : AgentState → M AgentState)
    (question : string) :
  outcome (ask_question_via invoke question) =
    Ok (match outcome (invoke [HumanMessage question]) with
        | Ok result =>
            match last result with
            | Some m => content m
            | None => FALLBACK_ANSWER
            end
        | Raise _ => FALLBACK_ANSWER
        end).
Proof.
  unfold ask_question_via. rewrite outcome_try_except, outcome_bind.
  destruct (outcome (invoke _)) as [result|e]; [|done].
  rewrite outcome_bind. unfold last_item.
  by destruct (last result).
Qed.

Lemma ask_question_via_log (invoke : AgentState → M AgentState)
    (question : string) :
  log (ask_question_via invoke question) = log (invoke [HumanMessage question]).
Proof.
  unfold ask_question_via. rewrite log_try_except, outcome_bind, log_bind.
  destruct (outcome (invoke _)) as [result|e]; simpl;
    [|by rewrite app_nil_r].
  rewrite outcome_bind, log_bind. unfold last_item.
  destruct (last result); simpl; by rewrite ?app_nil_r.
Qed.



(** C3, as stated, fails: no budget forces a transition to [END].  With
    a model that asks for an unregistered tool on every invocation, the
    run under the runtime's default recursion limit returns no final
    state: it is cut off by [GraphRecursionError]. *)
Lemma budget_forces_no_done_transition :
  always_requests_tool agent_searching ∧
  outcome (rag_agent_invoke agent_searching [HumanMessage "q"])
    = Raise GraphRecursionError ∧
  ¬ ∃ final,
      outcome (rag_agent_invoke agent_searching [HumanMessage "q"]) = Ok final.
Proof.
  split; [|split].
  - intros messages. eexists. split; [reflexivity|]. discriminate.
  - vm_compute. reflexivity.
  - intros [final Hfinal]. vm_compute in Hfinal. discriminate Hfinal.
Qed.

(** C3, amended.  The only budget is the recursion limit of the graph
    runtime; the source sets none.  Every run makes at most
    [recursion_limit] calls to the model, whatever the model does.  With
    a model that requests a tool on every invocation the run never
    returns a state: it ends with an exception and [ask_question] returns
    the fallback text.  When the tools it asks for are unregistered, so
    that the acting step never fails, the run goes on until the limit is
    used up: the exception is the runtime's [GraphRecursionError] and the
    model has been called at every other superstep,
    [(recursion_limit + 1) / 2] times. *)
Theorem loop_halts_within_budget (self : RAGAgent) (question : string) :
  length (llm_inputs (log (ask_question self question)))
    ≤ recursion_limit self ∧
  (always_requests_tool self →
     (∃ e, outcome (rag_agent_invoke self [HumanMessage question]) = Raise e) ∧
     outcome (ask_question self question) = Ok FALLBACK_ANSWER) ∧
  (always_requests_tool self → requests_unregistered_only self →
   0 < recursion_limit self →
     outcome (rag_agent_invoke self [HumanMessage question])
       = Raise GraphRecursionError ∧
     length (llm_inputs (log (ask_question self question)))
       = (recursion_limit self + 1) / 2).
Proof.
  split; [|split].
  - unfold ask_question. rewrite ask_question_via_log.
    apply pregel_loop_llm_calls.
  - intros Hllm.
    destruct (pregel_loop_never_done self (recursion_limit self) node_llm
                [HumanMessage question] Hllm) as [e He]; [done|].
    split; [by exists e|].
    unfold ask_question. rewrite ask_question_via_outcome.
    unfold rag_agent_invoke, channel_write. by rewrite He.
  - intros Hllm Hunknown _. unfold ask_question.
    rewrite ask_question_via_log.
    apply (pregel_loop_exhausts self (recursion_limit self) node_llm);
      auto.
Qed.

Lemma loop_halts_within_budget_witness :
  length (llm_inputs (log (ask_question agent_searching "q"))) = 13 ∧
  outcome (ask_question agent_searching "q") = Ok FALLBACK_ANSWER ∧
  outcome (rag_agent_invoke agent_searching [HumanMessage "q"])
    = Raise GraphRecursionError.
Proof.
  assert (always_requests_tool agent_searching) as Hllm.
  { intros messages. eexists. split; [reflexivity|]. discriminate. }
  assert (requests_unregistered_only agent_searching) as Hunknown.
  { intros messages reply t [= <-] Ht.
    apply list_elem_of_singleton in Ht. subst t. reflexivity. }
  destruct (loop_halts_within_budget agent_searching "q")
    as (_ & Hfallback & Hexhaust).
  destruct (Hexhaust Hllm Hunknown) as [Hraise Hcalls].
  { unfold agent_searching, DEFAULT_RECURSION_LIMIT. simpl. lia. }
  split; [by rewrite Hcalls|]. split; [|exact Hraise].
  exact (proj2 (Hfallback Hllm)).
Defined.

(** A run that returns stopped at [END] right after a reasoning step:
    the final state is the reply of the last model call, and that reply
    carries no request. *)
Lemma pregel_loop_done (self : RAGAgent) (budget : nat) (node : Node)
    (state final : AgentState) :
  node ≠ END →
  outcome (pregel_loop self budget node state) = Ok final →
  ∃ reply input,
    last (llm_inputs (log (pregel_loop self budget node state))) = Some input ∧
    llm self input = Ok reply ∧
    reply_tool_calls reply = [] ∧
    final = [reply_message reply].
Proof.
  revert node state. induction budget as [|budget IH]; intros node state Hnode.
  - done.
  - rewrite pregel_loop_step, outcome_bind, log_bind by done.
    destruct node; [| |done].
    + rewrite superstep_reasoning, superstep_reasoning_log.
      destruct (llm self _) as [reply|e] eqn:Hreply; [|done].
      destruct (reply_tool_calls reply) as [|t calls] eqn:Hcalls.
      * cbn [fst snd]. destruct budget as [|budget']; [done|].
        rewrite pregel_loop_END. intros [= <-].
        exists reply, (SystemMessage system_prompt :: state). by simpl.
      * cbn [fst snd]. intros Hrest.
        destruct (IH node_retriever_agent _ (ltac:(done)) Hrest)
          as (reply' & input & Hlast & Hllm & Hnone & ->).
        exists reply', input. rewrite llm_inputs_app.
        split; [apply last_app_Some; by left | done].
    + rewrite superstep_acting.
      destruct (outcome (take_action self state)) as [results|e] eqn:Hact;
        [|done].
      cbn [fst snd]. intros Hrest.
      destruct (IH node_llm _ (ltac:(done)) Hrest)
        as (reply' & input & Hlast & Hllm & Hnone & ->).
      exists reply', input. rewrite llm_inputs_app.
      split; [apply last_app_Some; by left | done].
Qed.

(** C7.  The first call to the model in answering a question is made on
    exactly two messages: the fixed system prompt, then the question as a
    user message. *)
Theorem first_reasoning_input (self : RAGAgent) (question : string) :
  0 < recursion_limit self →
  ∃ later,
    llm_inputs (log (ask_question self question)) =
      [SystemMessage system_prompt; HumanMessage question] :: later.
Proof.
  intros Hlimit. unfold ask_question. rewrite ask_question_via_log.
  unfold rag_agent_invoke, channel_write.
  destruct (recursion_limit self) as [|budget]; [lia|].
  rewrite pregel_loop_reasoning, log_bind, superstep_reasoning_log.
  destruct (outcome (superstep self node_llm _)) as [config|e].
  - rewrite llm_inputs_app. simpl. eauto.
  - simpl. eauto.
Qed.

Lemma first_reasoning_input_witness :
  ∃ later,
    llm_inputs (log (ask_question agent_once "What does Algorithm X achieve?")) =
      [SystemMessage system_prompt;
       HumanMessage "What does Algorithm X achieve?"] :: later.
Proof.
  apply (first_reasoning_input agent_once "What does Algorithm X achieve?").
  unfold agent_once, DEFAULT_RECURSION_LIMIT. simpl. lia.
Defined.

(** C8, as stated, fails when the transition to [END] is taken with the
    last step of the budget.  The model asks for an unregistered tool
    twelve times and answers at its thirteenth call, which is the
    twenty-fifth superstep: the reply carries no request and the
    conditional edge leads to [END], but under the runtime's default
    recursion limit of 25 the run is cut off there and [ask_question]
    returns the fallback text, not the reply's content. *)
Lemma done_on_last_step_is_lost :
  let last_results := [ToolMessage "xxxxxxxxxxxx" "web_search" INCORRECT_TOOL_NAME] in
  last (llm_inputs (log (ask_question agent_twelve_rounds "q")))
    = Some (SystemMessage system_prompt :: last_results) ∧
  length (llm_inputs (log (ask_question agent_twelve_rounds "q"))) = 13 ∧
  outcome (superstep agent_twelve_rounds node_llm last_results)
    = Ok (END, [AIMessage "done" []]) ∧
  outcome (rag_agent_invoke agent_twelve_rounds [HumanMessage "q"])
    = Raise GraphRecursionError ∧
  outcome (ask_question agent_twelve_rounds "q") = Ok FALLBACK_ANSWER ∧
  FALLBACK_ANSWER ≠ "done".
Proof.
  cbv zeta. repeat split; try (vm_compute; reflexivity); discriminate.
Qed.

(** C8, amended.  When the run of the graph returns a final state, which
    it does when [END] is reached with a step of the budget to spare,
    that state ends with the assistant message the last model call
    returned, this message carries no tool-call request, and
    [ask_question] returns its content. *)
Theorem answer_is_last_message (self : RAGAgent) (question : string)
    (final : AgentState) :
  outcome (rag_agent_invoke self [HumanMessage question]) = Ok final →
  ∃ reply input,
    last (llm_inputs (log (ask_question self question))) = Some input ∧
    llm self input = Ok reply ∧
    reply_tool_calls reply = [] ∧
    last final = Some (AIMessage (reply_content reply) []) ∧
    outcome (ask_question self question) = Ok (reply_content reply).
Proof.
  intros Hfinal. unfold ask_question.
  rewrite ask_question_via_log, ask_question_via_outcome, Hfinal.
  unfold rag_agent_invoke in *.
  destruct (pregel_loop_done self _ node_llm _ _ (ltac:(done)) Hfinal)
    as (reply & input & Hlast & Hllm & Hnone & ->).
  exists reply, input. unfold reply_message. rewrite Hnone. by simpl.
Qed.

Lemma answer_is_last_message_witness :
  ∃ reply input,
    last (llm_inputs
            (log (ask_question agent_search_once "What does Algorithm X achieve?")))
      = Some input ∧
    llm agent_search_once input = Ok reply ∧
    reply_tool_calls reply = [] ∧
    last [AIMessage "I could not look that up." []]
      = Some (AIMessage (reply_content reply) []) ∧
    outcome (ask_question agent_search_once "What does Algorithm X achieve?")
      = Ok (reply_content reply).
Proof.
  apply (answer_is_last_message agent_search_once
           "What does Algorithm X achieve?"
           [AIMessage "I could not look that up." []]).
  vm_compute. reflexivity.
Defined.

(** ** The text splitter's parameters *)

(** The splitter is configured with a positive window and an overlap
    strictly below it. *)
Fact splitter_parameters : 0 < chunk_size ∧ chunk_overlap < chunk_size.
Proof. unfold chunk_size, chunk_overlap. lia. Qed.

(** ** Further properties of runs *)

(** X3.  A model that answers the question at once.  With a recursion
    limit of two or more: one call to the model, no tool call, and the
    reply's content is the answer.  With a limit of one the same call is
    made, but the run is cut off before it can return and the answer is
    the fallback text. *)
Theorem direct_answer (self : RAGAgent) (question : string) (reply : AIReply) :
  llm self [SystemMessage system_prompt; HumanMessage question] = Ok reply →
  reply_tool_calls reply = [] →
  log (ask_question self question)
    = match recursion_limit self with
      | 0 => []
      | _ => [LLMInvoke [SystemMessage system_prompt; HumanMessage question]]
      end ∧
  (1 < recursion_limit self →
     outcome (ask_question self question) = Ok (reply_content reply)) ∧
  (recursion_limit self ≤ 1 →
     outcome (ask_question self question) = Ok FALLBACK_ANSWER).
Proof.
  intros Hreply Hcalls. unfold ask_question.
  rewrite ask_question_via_outcome, ask_question_via_log.
  unfold rag_agent_invoke, channel_write.
  destruct (recursion_limit self) as [|[|budget]].
  - split; [done|]. split; [lia|done].
  - rewrite pregel_loop_reasoning, outcome_bind, log_bind.
    rewrite superstep_reasoning, superstep_reasoning_log, Hreply, Hcalls.
    cbn [fst snd]. split; [done|]. split; [lia|done].
  - rewrite pregel_loop_reasoning, outcome_bind, log_bind.
    rewrite superstep_reasoning, superstep_reasoning_log, Hreply, Hcalls.
    cbn [fst snd]. rewrite pregel_loop_END.
    split; [done|]. split; [done|lia].
Qed.

Lemma direct_answer_witness :
  outcome (ask_question agent_direct "q") = Ok "a" ∧
  outcome (ask_question
             {| llm := llm agent_direct; retriever := retriever agent_direct;
                recursion_limit := 1 |} "q") = Ok FALLBACK_ANSWER.
Proof.
  split.
  - refine (proj1 (proj2 (direct_answer agent_direct "q"
              {| reply_content := "a"; reply_tool_calls := [] |}
              eq_refl eq_refl)) _).
    unfold agent_direct, DEFAULT_RECURSION_LIMIT. simpl. lia.
  - refine (proj2 (proj2 (direct_answer
              {| llm := llm agent_direct; retriever := retriever agent_direct;
                 recursion_limit := 1 |} "q"
              {| reply_content := "a"; reply_tool_calls := [] |}
              eq_refl eq_refl)) _).
    simpl. lia.
Defined.

(** X4.  One round of tool calls.  The model asks for tools, the acting
    step returns their results, and the model, called on the system
    prompt and those results, replies without a request.  With a
    recursion limit of four or more the answer is that second reply,
    after two calls to the model with the acting step in between; with a
    smaller limit the same conversation ends in the fallback text. *)
Theorem one_tool_round (self : RAGAgent) (question : string)
    (first second : AIReply) (results : list Message) :
  llm self [SystemMessage system_prompt; HumanMessage question] = Ok first →
  reply_tool_calls first ≠ [] →
  outcome (take_action_loop self (reply_tool_calls first) []) = Ok results →
  llm self (SystemMessage system_prompt :: results) = Ok second →
  reply_tool_calls second = [] →
  (4 ≤ recursion_limit self →
     outcome (ask_question self question) = Ok (reply_content second) ∧
     log (ask_question self question) =
       [LLMInvoke [SystemMessage system_prompt; HumanMessage question];
        LLMInvoke (SystemMessage system_prompt :: results)]) ∧
  (recursion_limit self < 4 →
     outcome (ask_question self question) = Ok FALLBACK_ANSWER).
Proof.
  intros Hfirst Hcalls Htools Hsecond Hdone.
  assert (take_action self [reply_message first]
            = take_action_loop self (reply_tool_calls first) []) as Hact.
  { by apply (take_action_last _ _ (reply_content first)). }
  assert (log (take_action_loop self (reply_tool_calls first) []) = [])
    as Hquiet.
  { destruct (first_registered self (reply_tool_calls first))
      as [Hall|(before & t & after & Heq & Hbefore & Ht)].
    - by rewrite take_action_loop_unregistered.
    - rewrite Heq, take_action_loop_registered in Htools by done.
      discriminate Htools. }
  unfold ask_question.
  rewrite ask_question_via_outcome, ask_question_via_log.
  unfold rag_agent_invoke, channel_write.
  destruct (reply_tool_calls first) as [|t calls] eqn:Hrequests; [done|].
  split; intros Hlimit.
  - destruct (recursion_limit self) as [|[|[|[|budget]]]]; [lia..|].
    rewrite pregel_loop_reasoning, outcome_bind, log_bind.
    rewrite superstep_reasoning, superstep_reasoning_log, Hfirst, Hrequests.
    cbn [fst snd].
    rewrite pregel_loop_acting, outcome_bind, log_bind.
    rewrite superstep_acting, superstep_acting_log, Hact, Htools, Hquiet.
    cbn [fst snd].
    rewrite pregel_loop_reasoning, outcome_bind, log_bind.
    rewrite superstep_reasoning, superstep_reasoning_log, Hsecond, Hdone.
    cbn [fst snd]. rewrite pregel_loop_END. by simpl.
  - destruct (recursion_limit self) as [|[|[|[|budget]]]]; [| | | |lia].
    + done.
    + rewrite pregel_loop_reasoning, outcome_bind.
      by rewrite superstep_reasoning, Hfirst, Hrequests.
    + rewrite pregel_loop_reasoning, outcome_bind.
      rewrite superstep_reasoning, Hfirst, Hrequests. cbn [fst snd].
      rewrite pregel_loop_acting, outcome_bind.
      by rewrite superstep_acting, Hact, Htools.
    + rewrite pregel_loop_reasoning, outcome_bind.
      rewrite superstep_reasoning, Hfirst, Hrequests. cbn [fst snd].
      rewrite pregel_loop_acting, outcome_bind.
      rewrite superstep_acting, Hact, Htools. cbn [fst snd].
      rewrite pregel_loop_reasoning, outcome_bind.
      by rewrite superstep_reasoning, Hsecond, Hdone.
Qed.

Lemma one_tool_round_witness :
  outcome (ask_question agent_search_once "What does Algorithm X achieve?")
    = Ok "I could not look that up." ∧
  length (llm_inputs
            (log (ask_question agent_search_once
                    "What does Algorithm X achieve?"))) = 2.
Proof.
  destruct (one_tool_round agent_search_once "What does Algorithm X achieve?"
              {| reply_content := "";
                 reply_tool_calls :=
                   [call "web_search" "call_1" [("query", "Algorithm X")]] |}
              {| reply_content := "I could not look that up.";
                 reply_tool_calls := [] |}
              [ToolMessage "call_1" "web_search" INCORRECT_TOOL_NAME])
    as [Hrun _].
  - reflexivity.
  - discriminate.
  - vm_compute. reflexivity.
  - reflexivity.
  - reflexivity.
  - destruct Hrun as [Hout Hlog].
    { unfold agent_search_once, DEFAULT_RECURSION_LIMIT. simpl. lia. }
    split; [exact Hout|]. by rewrite Hlog.
Defined.

(** X5.  Reasoning and acting alternate, so the model is called at most once
    every two supersteps: answering a question costs at most
    [(recursion_limit + 1) / 2] calls to the model. *)
Theorem llm_calls_half_budget (self : RAGAgent) (question : string) :
  2 * length (llm_inputs (log (ask_question self question)))
    ≤ recursion_limit self + 1.
Proof.
  unfold ask_question. rewrite ask_question_via_log.
  apply (pregel_loop_half_budget self (recursion_limit self) node_llm).
Qed.

(** X15.  The retriever is never queried: in no run, for no question
    and no behaviour of the model, does answering a question reach
    [get_relevant_documents]. *)
Theorem agent_never_retrieves (self : RAGAgent) (question : string) :
  retriever_queries (log (ask_question self question)) = [].
Proof.
  unfold ask_question. rewrite ask_question_via_log.
  apply pregel_loop_no_retrieval.
Qed.

Lemma pregel_loop_failure_origin (self : RAGAgent) (budget : nat)
    (node : Node) (state : AgentState) (e : Exception) :
  node = node_llm ∨
    (node = node_retriever_agent ∧
     ∃ text calls, last state = Some (AIMessage text calls)) →
  outcome (pregel_loop self budget node state) = Raise e →
  e = GraphRecursionError ∨
  (e = ToolValidationError ∧
   ∃ name input,
     last (log (pregel_loop self budget node state))
       = Some (ToolInvoke name input)) ∨
  (∃ messages,
     last (log (pregel_loop self budget node state))
       = Some (LLMInvoke messages) ∧
     llm self messages = Raise e).
Proof.
  revert node state. induction budget as [|budget IH]; intros node state Hnode.
  - intros [= <-]. by left.
  - destruct Hnode as [->|[-> (text & calls & Hlast)]].
    + rewrite pregel_loop_reasoning, outcome_bind, log_bind.
      rewrite superstep_reasoning, superstep_reasoning_log.
      destruct (llm self _) as [reply|e'] eqn:Hllm.
      * cbn [fst snd].
        destruct (reply_tool_calls reply) as [|t calls] eqn:Hcalls.
        { destruct budget; [intros [= <-]; by left | done]. }
        intros Hrest.
        assert (node_retriever_agent = node_llm ∨
                (node_retriever_agent = node_retriever_agent ∧
                 ∃ text calls',
                   last [reply_message reply] = Some (AIMessage text calls')))
          as Hnode.
        { right. split; [done|]. simpl. eauto. }
        destruct (IH node_retriever_agent [reply_message reply] Hnode Hrest)
          as [->|[(-> & name & input & Hlog)|(messages & Hlog & Hraise)]].
        { by left. }
        { right. left. split; [done|]. exists name, input.
          apply last_app_Some. by left. }
        { right. right. exists messages. split; [|done].
          apply last_app_Some. by left. }
      * intros [= ->]. right. right. eauto.
    + rewrite pregel_loop_acting, outcome_bind, log_bind.
      rewrite superstep_acting, superstep_acting_log.
      rewrite (take_action_last _ _ _ _ Hlast).
      destruct (first_registered self calls)
        as [Hall|(before & t & after & -> & Hbefore & Ht)].
      * rewrite take_action_loop_unregistered by done.
        cbn [outcome log ret fst snd]. rewrite app_nil_l. intros Hrest.
        by apply (IH node_llm) in Hrest; [|by left].
      * rewrite take_action_loop_registered by done.
        intros [= <-]. right. left. split; [done|]. simpl. eauto.
Qed.

(** X6.  The graph's own code does not fail in a run: the indexing and the
    attribute reads of [should_continue] and [take_action] always find
    what they look for.  When [invoke] raises, the exception is the
    runtime's [GraphRecursionError], or the validation error of the
    registered tool, whose invocation is then the last thing the run
    did, or what the model raised on the last call made to it. *)
Theorem invoke_failure_origin (self : RAGAgent) (input : AgentState)
    (e : Exception) :
  0 < recursion_limit self →
  outcome (rag_agent_invoke self input) = Raise e →
  e = GraphRecursionError ∨
  (e = ToolValidationError ∧
   ∃ name tool_input,
     last (log (rag_agent_invoke self input))
       = Some (ToolInvoke name tool_input)) ∨
  (∃ messages,
     last (log (rag_agent_invoke self input)) = Some (LLMInvoke messages) ∧
     llm self messages = Raise e).
Proof. intros _. apply pregel_loop_failure_origin. by left. Qed.

Lemma invoke_failure_origin_witness :
  ToolValidationError = GraphRecursionError ∨
  (ToolValidationError = ToolValidationError ∧
   ∃ name tool_input,
     last (log (rag_agent_invoke agent_once
                  [HumanMessage "What does Algorithm X achieve?"]))
       = Some (ToolInvoke name tool_input)) ∨
  (∃ messages,
     last (log (rag_agent_invoke agent_once
                  [HumanMessage "What does Algorithm X achieve?"]))
       = Some (LLMInvoke messages) ∧
     llm agent_once messages = Raise ToolValidationError).
Proof.
  apply (invoke_failure_origin agent_once
           [HumanMessage "What does Algorithm X achieve?"]).
  - unfold agent_once, DEFAULT_RECURSION_LIMIT. simpl. lia.
  - vm_compute. reflexivity.
Defined.

Lemma pregel_loop_input_shape (self : RAGAgent) (question : string)
    (budget : nat) (node : Node) (state : AgentState) :
  (node = node_llm ∧
     model_input_shape question (SystemMessage system_prompt :: state)) ∨
  (node = node_retriever_agent ∧
     ∃ text calls, state = [AIMessage text calls] ∧ calls ≠ []) →
  Forall (model_input_shape question)
    (llm_inputs (log (pregel_loop self budget node state))).
Proof.
  revert node state. induction budget as [|budget IH]; intros node state Hnode.
  - constructor.
  - destruct Hnode as [[-> Hshape]|[-> (text & calls & -> & Hcalls)]].
    + rewrite pregel_loop_reasoning, log_bind.
      rewrite superstep_reasoning, superstep_reasoning_log.
      destruct (llm self _) as [reply|e]; [|by repeat constructor].
      rewrite llm_inputs_app. apply Forall_app. split;
        [by repeat constructor|].
      cbn [fst snd].
      destruct (reply_tool_calls reply) as [|t calls] eqn:Hcalls.
      * rewrite pregel_loop_END_log. constructor.
      * apply IH. right. split; [done|].
        exists (reply_content reply), (t :: calls).
        unfold reply_message. by rewrite Hcalls.
    + rewrite pregel_loop_acting, log_bind, superstep_acting.
      pose proof (superstep_acting_llm_inputs self [AIMessage text calls])
        as Hnone.
      destruct (outcome (take_action self [AIMessage text calls]))
        as [results|e] eqn:Hact; [|by rewrite Hnone].
      rewrite llm_inputs_app, Hnone, app_nil_l. cbn [fst snd].
      apply IH. left. split; [done|].
      rewrite (take_action_last _ _ text calls) in Hact by done.
      destruct (first_registered self calls)
        as [Hall|(before & t & after & -> & Hbefore & Ht)].
      * rewrite take_action_loop_unregistered in Hact by done.
        injection Hact as <-. eexists. split; [done|]. right. split.
        { by destruct calls. }
        clear. induction calls; constructor; [by eexists | done].
      * by rewrite take_action_loop_registered in Hact.
Qed.

(** X7.  What the model is shown.  Every call to the model in answering a
    question is made on the system prompt followed either by the
    question alone or by tool results alone: the model never sees the
    question and tool results together, nor any of its own earlier
    replies. *)
Theorem model_inputs_shape (self : RAGAgent) (question : string) :
  Forall (model_input_shape question)
    (llm_inputs (log (ask_question self question))).
Proof.
  unfold ask_question. rewrite ask_question_via_log.
  apply pregel_loop_input_shape. left. split; [done|].
  exists [HumanMessage question]. split; [done|]. by left.
Qed.

(** ** [str.strip] *)

Lemma starts_with_app (w rest : list Ascii.ascii) :
  starts_with w (w ++ rest) = true.
Proof.
  induction w as [|a w IH]; simpl; [done|].
  by rewrite bool_decide_eq_true_2, IH.
Qed.

Lemma starts_with_true (w l : list Ascii.ascii) :
  starts_with w l = true → l = w ++ drop (length w) l.
Proof.
  revert l. induction w as [|a w IH]; intros [|b l]; simpl; try done.
  intros [Hab Hrest]%andb_true_iff.
  apply bool_decide_eq_true_1 in Hab as ->. f_equal. by apply IH.
Qed.

Lemma after_leading_Some (pats : list (list Ascii.ascii))
    (l rest : list Ascii.ascii) :
  after_leading pats l = Some rest → ∃ w, w ∈ pats ∧ l = w ++ rest.
Proof.
  induction pats as [|w pats IH]; simpl; [done|].
  destruct (starts_with w l) eqn:Hw.
  - intros [= <-]. exists w. split; [by left | by apply starts_with_true].
  - intros (w' & Hin & ->)%IH. exists w'. split; [by right | done].
Qed.

Lemma after_leading_None (pats : list (list Ascii.ascii))
    (l : list Ascii.ascii) :
  after_leading pats l = None ↔ ∀ w rest, w ∈ pats → l ≠ w ++ rest.
Proof.
  split.
  - induction pats as [|w pats IH]; simpl; intros Hnone w' rest Hin.
    { by apply elem_of_nil in Hin. }
    destruct (starts_with w l) eqn:Hw; [done|].
    apply elem_of_cons in Hin as [->|Hin]; [|by apply IH].
    intros ->. by rewrite starts_with_app in Hw.
  - intros Hfree. destruct (after_leading pats l) as [rest|] eqn:Hl; [|done].
    apply after_leading_Some in Hl as (w & Hin & ->).
    by destruct (Hfree w rest Hin).
Qed.

Lemma drop_leading_noop (pats : list (list Ascii.ascii)) (steps : nat)
    (l : list Ascii.ascii) :
  after_leading pats l = None → drop_leading pats steps l = l.
Proof. intros Hl. destruct steps; simpl; [done|]. by rewrite Hl. Qed.

Lemma drop_leading_clean (pats : list (list Ascii.ascii)) (steps : nat)
    (l : list Ascii.ascii) :
  Forall (λ w, w ≠ []) pats →
  length l ≤ steps →
  after_leading pats (drop_leading pats steps l) = None.
Proof.
  intros Hpats. revert l. induction steps as [|steps IH]; intros l Hlen.
  - destruct l; [|simpl in Hlen; lia]. simpl.
    apply after_leading_None. intros w rest Hin Hnil.
    symmetry in Hnil. apply app_eq_nil in Hnil as [-> _].
    by apply (proj1 (Forall_forall _ _) Hpats [] Hin).
  - simpl. destruct (after_leading pats l) as [rest|] eqn:Hl; [|done].
    apply IH. apply after_leading_Some in Hl as (w & Hin & ->).
    assert (w ≠ []) as Hw by (by apply (proj1 (Forall_forall _ _) Hpats)).
    rewrite length_app in Hlen. destruct w; [done|]. simpl in Hlen. lia.
Qed.

Lemma drop_leading_suffix (pats : list (list Ascii.ascii)) (steps : nat)
    (l : list Ascii.ascii) :
  ∃ dropped, Forall (λ w, w ∈ pats) dropped ∧
    l = concat dropped ++ drop_leading pats steps l.
Proof.
  revert l. induction steps as [|steps IH]; intros l; simpl.
  - by exists [].
  - destruct (after_leading pats l) as [rest|] eqn:Hl; [|by exists []].
    apply after_leading_Some in Hl as (w & Hin & ->).
    destruct (IH rest) as (dropped & Hall & Hrest).
    exists (w :: dropped). split; [by constructor|].
    simpl. rewrite <- app_assoc. by f_equal.
Qed.

Lemma drop_leading_nil (pats : list (list Ascii.ascii)) (steps : nat) :
  drop_leading pats steps [] = [].
Proof.
  induction steps as [|steps IH]; simpl; [done|].
  destruct (after_leading pats []) as [rest|] eqn:Hl; [|done].
  apply after_leading_Some in Hl as (w & _ & Hnil).
  symmetry in Hnil. apply app_eq_nil in Hnil as [_ ->]. exact IH.
Qed.

Lemma drop_leading_all (pats : list (list Ascii.ascii)) (steps : nat)
    (spaces : list (list Ascii.ascii)) :
  (∀ w rest, w ∈ pats → after_leading pats (w ++ rest) = Some rest) →
  Forall (λ w, w ∈ pats) spaces →
  length spaces ≤ steps →
  drop_leading pats steps (concat spaces) = [].
Proof.
  intros Hfree Hall. revert steps.
  induction Hall as [|w spaces Hw _ IH]; intros steps Hlen.
  - apply drop_leading_nil.
  - destruct steps as [|steps]; [simpl in Hlen; lia|].
    simpl. rewrite (Hfree w _ Hw). apply IH. simpl in Hlen. lia.
Qed.

Lemma WHITESPACE_nonempty : Forall (λ w, w ≠ []) WHITESPACE.
Proof. unfold WHITESPACE. simpl. repeat constructor; discriminate. Qed.

Lemma WHITESPACE_rev_nonempty :
  Forall (λ w, w ≠ []) (map (@rev Ascii.ascii) WHITESPACE).
Proof. unfold WHITESPACE. simpl. repeat constructor; discriminate. Qed.

(** No white-space character's encoding begins another's. *)
Lemma WHITESPACE_prefix_free (w rest : list Ascii.ascii) :
  w ∈ WHITESPACE → after_leading WHITESPACE (w ++ rest) = Some rest.
Proof.
  revert w. apply Forall_forall. unfold WHITESPACE. simpl.
  repeat constructor; vm_compute; reflexivity.
Qed.

Lemma concat_length_le (spaces : list (list Ascii.ascii)) :
  Forall (λ w, w ≠ []) spaces → length spaces ≤ length (concat spaces).
Proof.
  induction 1 as [|w spaces Hw _ IH]; simpl; [done|].
  rewrite length_app. destruct w; [done|]. simpl. lia.
Qed.

Lemma lstrip_bytes_clean (l : list Ascii.ascii) :
  after_leading WHITESPACE (lstrip_bytes l) = None.
Proof. apply drop_leading_clean; [apply WHITESPACE_nonempty | done]. Qed.

Lemma rstrip_bytes_clean (l : list Ascii.ascii) :
  after_leading (map (@rev Ascii.ascii) WHITESPACE) (rev (rstrip_bytes l))
    = None.
Proof.
  unfold rstrip_bytes. rewrite rev_involutive.
  apply drop_leading_clean; [apply WHITESPACE_rev_nonempty|].
  by rewrite length_rev.
Qed.

Lemma rstrip_bytes_prefix (l : list Ascii.ascii) :
  ∃ dropped,
    Forall (λ w, w ∈ map (@rev Ascii.ascii) WHITESPACE) dropped ∧
    l = rstrip_bytes l ++ rev (concat dropped).
Proof.
  unfold rstrip_bytes.
  destruct (drop_leading_suffix (map (@rev Ascii.ascii) WHITESPACE)
              (length l) (rev l)) as (dropped & Hall & Hrev).
  exists dropped. split; [done|].
  rewrite <- rev_app_distr, <- Hrev. by rewrite rev_involutive.
Qed.

Lemma strip_bytes_clean (l : list Ascii.ascii) :
  after_leading WHITESPACE (strip_bytes l) = None ∧
  after_leading (map (@rev Ascii.ascii) WHITESPACE) (rev (strip_bytes l))
    = None.
Proof.
  split; [|apply rstrip_bytes_clean].
  unfold strip_bytes.
  destruct (rstrip_bytes_prefix (lstrip_bytes l)) as (dropped & _ & Hprefix).
  apply after_leading_None. intros w rest Hin Heq.
  pose proof (lstrip_bytes_clean l) as Hclean.
  rewrite after_leading_None in Hclean.
  apply (Hclean w (rest ++ rev (concat dropped)) Hin).
  rewrite Hprefix at 1. rewrite Heq. by rewrite <- app_assoc.
Qed.

Lemma strip_bytes_fixed (l : list Ascii.ascii) :
  after_leading WHITESPACE l = None →
  after_leading (map (@rev Ascii.ascii) WHITESPACE) (rev l) = None →
  strip_bytes l = l.
Proof.
  intros Hfront Hback. unfold strip_bytes, lstrip_bytes.
  rewrite (drop_leading_noop _ _ _ Hfront). unfold rstrip_bytes.
  rewrite (drop_leading_noop _ _ _ Hback). apply rev_involutive.
Qed.

(** X9.  What [strip] returns is what the text holds between its leading and
    its trailing white space: the result neither begins nor ends with a
    white-space character, the characters dropped in front and at the
    back are all white space, and stripping the result again changes
    nothing. *)
Theorem strip_normal_form (s : string) :
  let bytes := Strings.String.list_ascii_of_string in
  after_leading WHITESPACE (bytes (strip s)) = None ∧
  after_leading (map (@rev Ascii.ascii) WHITESPACE) (rev (bytes (strip s)))
    = None ∧
  (∃ leading trailing,
     Forall (λ w, w ∈ WHITESPACE) leading ∧
     Forall (λ w, w ∈ map (@rev Ascii.ascii) WHITESPACE) trailing ∧
     bytes s = concat leading ++ bytes (strip s) ++ rev (concat trailing)) ∧
  strip (strip s) = strip s.
Proof.
  cbv zeta. unfold strip.
  rewrite !Strings.String.list_ascii_of_string_of_list_ascii.
  destruct (strip_bytes_clean (Strings.String.list_ascii_of_string s))
    as [Hfront Hback].
  split; [done|]. split; [done|]. split.
  - unfold strip_bytes.
    destruct (drop_leading_suffix WHITESPACE
                (length (Strings.String.list_ascii_of_string s))
                (Strings.String.list_ascii_of_string s))
      as (leading & Hall & Hsplit).
    destruct (rstrip_bytes_prefix
                (lstrip_bytes (Strings.String.list_ascii_of_string s)))
      as (trailing & Hback' & Htrailing).
    exists leading, trailing. split; [done|]. split; [done|].
    rewrite <- Htrailing. exact Hsplit.
  - by rewrite strip_bytes_fixed.
Qed.

Lemma strip_blank (s : string) : blank s → strip s = "".
Proof.
  intros (spaces & Hall & Hbytes). unfold strip, strip_bytes, lstrip_bytes.
  rewrite Hbytes.
  rewrite drop_leading_all;
    [done | apply WHITESPACE_prefix_free | done |].
  apply concat_length_le.
  eapply Forall_impl; [exact Hall|]. intros w Hw.
  by apply (proj1 (Forall_forall _ _) WHITESPACE_nonempty).
Qed.

(** ** The [/ask] route *)

Lemma strip_empty : strip "" = "".
Proof. reflexivity. Qed.

Section Route.
Variable agent : RAGAgent.
Variable console : string → Outcome ().
Variable request : Request.


Lemma route_no_question (fields : gmap string JSON) (s : string) :
  get_json request = Ok (JObject fields) →
  default (JString "") (fields !! "question") = JString s →
  strip s = "" →
  Routes.ask_question agent console request = ret Routes.NO_QUESTION.
Proof.
  intros Hjson Hvalue Hempty. unfold Routes.ask_question.
  rewrite Hjson.
  change (Run [] (Ok (JObject fields))) with (ret (JObject fields)).
  rewrite bind_ret_l. cbn [Routes.getattr_get]. rewrite bind_ret_l, Hvalue.
  cbn [Routes.call_strip]. rewrite bind_ret_l, Hempty. done.
Qed.

End Route.



(** The statement that every response other than 200 comes without a
    call fails on one path: the agent has answered and the [print] of
    its answer raises, here on a console that takes ASCII only. *)
Lemma error_after_agent_call :
  outcome (Routes.ask_question agent_arrow console_ascii (post_question "hi"))
    = Ok Routes.SERVER_ERROR ∧
  log (Routes.ask_question agent_arrow console_ascii (post_question "hi"))
    = [LLMInvoke [SystemMessage system_prompt; HumanMessage "hi"]].
Proof. split; vm_compute; reflexivity. Qed.





(** X13.  A question made of white space only, in any mix of the characters
    [strip] removes, is refused with 400 and the fixed error text. *)
Theorem ask_route_blank_question (agent : RAGAgent)
    (console : string → Outcome ()) (request : Request)
    (fields : gmap string JSON) (s : string) :
  get_json request = Ok (JObject fields) →
  fields !! "question" = Some (JString s) →
  blank s →
  Routes.ask_question agent console request =
    ret {| body := {[ "error" := "No question provided" ]};
           status_code := 400 |}.
Proof.
  intros Hjson Hq Hblank.
  apply (route_no_question agent console request fields s);
    [done | by rewrite Hq | by apply strip_blank].
Qed.

Lemma ask_route_blank_question_witness :
  Routes.ask_question agent_once console_ascii
    (post_question (Strings.String.string_of_list_ascii
                      (map byte [32; 9; 226; 128; 131; 10; 194; 160]))) =
    ret {| body := {[ "error" := "No question provided" ]};
           status_code := 400 |}.
Proof.
  eapply ask_route_blank_question.
  - reflexivity.
  - vm_compute. reflexivity.
  - exists (map (map byte) [[32]; [9]; [226; 128; 131]; [10]; [194; 160]]).
    split; [|vm_compute; reflexivity].
    repeat constructor; apply list_elem_of_In; vm_compute; tauto.
Defined.

(** ** The step budget and finished runs *)

Lemma bind_ext {A B} (m : M A) (k1 k2 : A → M B) :
  (∀ a, outcome m = Ok a → k1 a = k2 a) → m ≫= k1 = m ≫= k2.
Proof.
  intros Hk. unfold mbind, M_bind, bind.
  destruct (outcome m) as [a|e] eqn:Hm; [|done]. by rewrite (Hk a).
Qed.

Lemma pregel_loop_more_budget (self : RAGAgent) (budget extra : nat)
    (node : Node) (state final : AgentState) :
  outcome (pregel_loop self budget node state) = Ok final →
  pregel_loop self (budget + extra) node state
    = pregel_loop self budget node state.
Proof.
  revert node state. induction budget as [|budget IH]; intros node state.
  - done.
  - change (S budget + extra) with (S (budget + extra)).
    assert (node = END ∨ node ≠ END) as [->|Hnode] by (destruct node; auto).
    { by rewrite !pregel_loop_END. }
    rewrite !pregel_loop_step, outcome_bind by done.
    intros Hrun. apply bind_ext. intros config Hconfig.
    rewrite Hconfig in Hrun. by apply IH.
Qed.

Section SameServices.
Variables self other : RAGAgent.
Hypothesis same_llm : llm other = llm self.

Lemma tool_call_result_services (t : ToolCall) :
  tool_call_result other t = tool_call_result self t.
Proof.
  unfold tool_call_result. rewrite !tools_dict_lookup. by case_decide.
Qed.

Lemma take_action_loop_services (pending : list ToolCall)
    (acc : list Message) :
  take_action_loop other pending acc = take_action_loop self pending acc.
Proof.
  revert acc. induction pending as [|t rest IH]; intros acc; simpl; [done|].
  rewrite tool_call_result_services. apply bind_ext. intros result _.
  apply IH.
Qed.

Lemma superstep_services (node : Node) (state : AgentState) :
  superstep other node state = superstep self node state.
Proof.
  assert (run_node other node state = run_node self node state) as Hrun.
  { destruct node; cbn [run_node]; [| |done].
    - unfold call_llm, llm_invoke. by rewrite same_llm.
    - unfold take_action. apply bind_ext. intros m _.
      apply bind_ext. intros calls _. apply take_action_loop_services. }
  unfold superstep. by rewrite Hrun.
Qed.

Lemma pregel_loop_services (budget : nat) (node : Node) (state : AgentState) :
  pregel_loop other budget node state = pregel_loop self budget node state.
Proof.
  revert node state. induction budget as [|budget IH]; intros node state.
  - done.
  - assert (node = END ∨ node ≠ END) as [->|Hnode] by (destruct node; auto).
    { by rewrite !pregel_loop_END. }
    rewrite !pregel_loop_step, superstep_services by done.
    apply bind_ext. intros config _. apply IH.
Qed.
End SameServices.

(** X8.  A run that reaches an answer does not depend on the budget left
    over: the same agent with a larger recursion limit makes the same
    calls and returns the same answer. *)
Theorem larger_budget_same_run (self : RAGAgent) (question : string)
    (final : AgentState) (extra : nat) :
  outcome (rag_agent_invoke self [HumanMessage question]) = Ok final →
  ask_question
    {| llm := llm self; retriever := retriever self;
       recursion_limit := recursion_limit self + extra |} question
    = ask_question self question.
Proof.
  intros Hfinal. unfold ask_question, ask_question_via. f_equal. f_equal.
  unfold rag_agent_invoke in *. cbn [recursion_limit].
  rewrite <- (pregel_loop_more_budget self _ extra _ _ _ Hfinal).
  by apply pregel_loop_services.
Qed.

Lemma larger_budget_same_run_witness :
  ask_question
    {| llm := llm agent_search_once; retriever := retriever agent_search_once;
       recursion_limit := recursion_limit agent_search_once + 100 |}
    "What does Algorithm X achieve?"
  = ask_question agent_search_once "What does Algorithm X achieve?".
Proof.
  apply (larger_budget_same_run agent_search_once
           "What does Algorithm X achieve?"
           [AIMessage "I could not look that up." []] 100).
  vm_compute. reflexivity.
Defined.
